(** * Embiggen: tile-grid geometry, seeds and seam-mask selection

    A shallow embedding of [invokeai/backend/generator/embiggen.py]
    ([Embiggen.get_make_image] and its closure [make_image]).

    Python integers are [Z]; [//] and [%] are floor division and its
    remainder, which is what [Z.div] and [Z.modulo] compute for a non-zero
    divisor; the zero divisor raises.  A Python float is the rational it
    denotes: comparisons are exact, and a product is the exact product
    rounded to the nearest binary64 value, ties to even ([fl]); infinities,
    NaN and magnitudes from 2^1024 on are not modelled.  Images are opaque
    values; alpha layers are the ordered lists of pastes that build them,
    and PIL's [resize] refuses a side below one pixel. *)

From Stdlib Require Import ZArith List Finite Bool Lia QArith Qround Qpower Lqa Sorted Permutation.
Import ListNotations.
Local Open Scope Z_scope.

(** ** Exceptions and results *)

Inductive exn : Type :=
| AssertionError
| ZeroDivisionError
| TypeError
| IndexError
| UnboundLocalError
| ValueError.

Inductive result (A : Type) : Type :=
| Ok (a : A)
| Raise (e : exn).
Arguments Ok {A} a.
Arguments Raise {A} e.

Definition bind {A B : Type} (r : result A) (k : A -> result B) : result B :=
  match r with
  | Ok a => k a
  | Raise e => Raise e
  end.

Notation "x <- r ;; k" := (bind r (fun x => k))
  (at level 61, r at next level, right associativity).

Definition is_ok {A : Type} (r : result A) : bool :=
  match r with Ok _ => true | Raise _ => false end.

(** ** Integer helpers *)

(** Python [a // b] on integers. *)
Definition floordiv (a b : Z) : result Z :=
  if b =? 0 then Raise ZeroDivisionError else Ok (a / b).

(** [def ceildiv(a, b): return -1 * (-a // b)] *)
Definition ceildiv (a b : Z) : result Z :=
  q <- floordiv (- a) b ;; Ok (-1 * q).

(** Python [round] on a rational: nearest integer, ties to the even one. *)
Definition round (q : Q) : Z :=
  let f := Qfloor q in
  match Qcompare (q - inject_Z f) (1 # 2) with
  | Lt => f
  | Gt => f + 1
  | Eq => if Z.even f then f else f + 1
  end.

(** The exponent of the leading bit of a positive rational:
    [2 ^ floor_log2 q <= q < 2 ^ (floor_log2 q + 1)]. *)
Definition floor_log2 (q : Q) : Z :=
  let k := Z.log2 (Qnum q) - Z.log2 (Zpos (Qden q)) in
  if Qle_bool (2 ^ k) q then k else k - 1.

(** The binary64 value nearest to a positive rational: a significand of 53
    bits (fewer below 2^-1022, where the exponent stops at -1074), rounded
    to nearest, ties to the even significand. *)
Definition nearest (q : Q) : Q :=
  let e := Z.max (-1074) (floor_log2 q - 52) in
  (inject_Z (round (q / 2 ^ e)) * 2 ^ e)%Q.

(** The float that holds a number, the result of a float operation on the
    exact result, and [float(n)] on an integer. *)
Definition fl (q : Q) : Q :=
  match Qcompare q 0 with
  | Eq => 0%Q
  | Gt => nearest q
  | Lt => (- nearest (- q))%Q
  end.

(** [round] applied to a Python integer is the integer itself. *)
Definition round_int (z : Z) : Z := z.

(** [for tile in range(n)] *)
Definition range (n : Z) : list Z := map Z.of_nat (seq 0 (Z.to_nat n)).

(** ** Argument checks of [get_make_image] *)

(** The third entry of [embiggen], after
    [if len(embiggen) < 3: embiggen.append(0.25) elif embiggen[2] < 0: embiggen[2] = 0.25]. *)
Definition embiggen_2 (given : option Q) : Q :=
  match given with
  | None => 1 # 4
  | Some e => if Qlt_le_dec e 0 then 1 # 4 else e
  end.

(** Buffer size in pixels, [(overlap_size_x, overlap_size_y)]: the float
    [embiggen[2]] times the integer tile side is a float product. *)
Definition overlap_size (e2 : Q) (width height : Z) : Z * Z :=
  let e2 := fl e2 in
  if Qlt_le_dec e2 1 then
    let e2' := if Qlt_le_dec e2 0 then 0%Q else e2 in
    (round (fl (e2' * fl (inject_Z width))),
     round (fl (e2' * fl (inject_Z height))))
  else (round e2, round e2).

(** One axis of the tile count:
    [n = 1; if (superdim - dim) > 0: n = ceildiv(superdim - dim, dim - overlap) + 1]. *)
Definition emb_tiles (superdim dim overlap : Z) : result Z :=
  if superdim - dim >? 0 then
    c <- ceildiv (superdim - dim) (dim - overlap) ;; Ok (c + 1)
  else Ok 1.

(** The grid the closure is built on. *)
Record Grid : Type := mkGrid {
  initsuperwidth : Z;
  initsuperheight : Z;
  width : Z;
  height : Z;
  overlap_size_x : Z;
  overlap_size_y : Z;
  emb_tiles_x : Z;
  emb_tiles_y : Z
}.

(** The sizing part of [get_make_image]: both tile counts, then the sanity
    assertion [emb_tiles_x > 1 or emb_tiles_y > 1]. *)
Definition plan (sw sh w h ox oy : Z) : result Grid :=
  tx <- emb_tiles sw w ox ;;
  ty <- emb_tiles sh h oy ;;
  if (tx >? 1) || (ty >? 1) then Ok (mkGrid sw sh w h ox oy tx ty)
  else Raise AssertionError.

(** ** Tile selection *)

(** [embiggen_tiles] is [None], or a list of tile numbers.  Python
    truthiness: a non-empty list. *)
Definition sparse (embiggen_tiles : option (list Z)) : option (list Z) :=
  match embiggen_tiles with
  | Some (n :: l) => Some (n :: l)
  | _ => None
  end.

Definition truthy (embiggen_tiles : option (list Z)) : bool :=
  match sparse embiggen_tiles with Some _ => true | None => false end.

(** [x in l] *)
Definition contains (l : list Z) (x : Z) : bool := existsb (Z.eqb x) l.

Fixpoint insort (x : Z) (l : list Z) : list Z :=
  match l with
  | [] => [x]
  | y :: l' => if x <=? y then x :: y :: l' else y :: insort x l'
  end.

(** [l.sort()] on integers. *)
Definition sort (l : list Z) : list Z := fold_right insort [] l.

(** [if embiggen_tiles: embiggen_tiles = list(map(lambda n: n - 1, embiggen_tiles)); embiggen_tiles.sort()] *)
Definition normalise (embiggen_tiles : option (list Z)) : option (list Z) :=
  match sparse embiggen_tiles with
  | Some l => Some (sort (map (fun n => n - 1) l))
  | None => embiggen_tiles
  end.

(** [image.resize(size)]: PIL raises when a side is below one pixel. *)
Definition resize (size : Z * Z) : result unit :=
  if (fst size <? 1) || (snd size <? 1) then Raise ValueError else Ok tt.

(** The gradients behind the alpha layers: [agradientL] is resized to
    [(overlap_size_x, height)], [agradientT] to [(width, overlap_size_y)] and
    the corners to [(overlap_size_x, overlap_size_y)]; the layers of a rerun
    resize to the same sizes. *)
Definition alpha_layers (w h ox oy : Z) : result unit :=
  _ <- resize (ox, h) ;;
  _ <- resize (w, oy) ;;
  resize (ox, oy).

(** From the overlap in pixels to the closure: the grid is planned, then
    the alpha layers are built. *)
Definition prepare (sw sh w h ox oy : Z) : result Grid :=
  g <- plan sw sh w h ox oy ;;
  _ <- alpha_layers w h ox oy ;;
  Ok g.

(** [get_make_image]: the selection is normalised, the overlap converted to
    pixels, the grid planned and the alpha layers built. *)
Definition get_make_image (e2 : option Q) (embiggen_tiles : option (list Z))
    (sw sh w h : Z) : result (Grid * option (list Z)) :=
  let t := normalise embiggen_tiles in
  let '(ox, oy) := overlap_size (embiggen_2 e2) w h in
  g <- prepare sw sh w h ox oy ;; Ok (g, t).

(** ** Alpha layers *)

Inductive Gradient : Type :=
| agradientL      (* left side transparent *)
| agradientT      (* top side transparent *)
| agradientC      (* radial corner, left-top quadrant *)
| agradientAsymC. (* asymmetric diagonal corner *)

(** One [layer.paste(gradient.rotate(rot), (x, y))]. *)
Record Paste : Type := mkPaste {
  paste_gradient : Gradient;
  paste_rotate : Z;
  paste_at : Z * Z
}.

Inductive AlphaLayer : Type :=
| alphaLayerL | alphaLayerT | alphaLayerLTC | alphaLayerTaC | alphaLayerLTaC
| alphaLayerR | alphaLayerB | alphaLayerTB | alphaLayerLR
| alphaLayerRBC | alphaLayerLBC | alphaLayerRTC
| alphaLayerABT | alphaLayerABL | alphaLayerABR | alphaLayerABB
| alphaLayerAA.

(** The pastes that build each layer on its fully white base, in order.
    Pasting a whole layer at [(0, 0)] on a white base replays its pastes. *)
Definition pastes (g : Grid) (a : AlphaLayer) : list Paste :=
  let o := (0, 0) in
  let r := (width g - overlap_size_x g, 0) in
  let b := (0, height g - overlap_size_y g) in
  let rb := (width g - overlap_size_x g, height g - overlap_size_y g) in
  let L := [mkPaste agradientL 0 o] in
  let T := [mkPaste agradientT 0 o] in
  let LTC := [mkPaste agradientL 0 o; mkPaste agradientT 0 o; mkPaste agradientC 0 o] in
  let LBC := [mkPaste agradientL 0 o; mkPaste agradientT 180 b; mkPaste agradientC 90 b] in
  let RTC := [mkPaste agradientL 180 r; mkPaste agradientT 0 o; mkPaste agradientC 270 r] in
  let ABT := LBC ++ [mkPaste agradientL 180 r; mkPaste agradientC 180 rb] in
  match a with
  | alphaLayerL => L
  | alphaLayerT => T
  | alphaLayerLTC => LTC
  | alphaLayerTaC => T ++ [mkPaste agradientAsymC 270 r]
  | alphaLayerLTaC => LTC ++ [mkPaste agradientAsymC 270 r]
  | alphaLayerR => [mkPaste agradientL 180 r]
  | alphaLayerB => [mkPaste agradientT 180 b]
  | alphaLayerTB => [mkPaste agradientT 0 o; mkPaste agradientT 180 b]
  | alphaLayerLR => [mkPaste agradientL 0 o; mkPaste agradientL 180 r]
  | alphaLayerRBC =>
      [mkPaste agradientL 180 r; mkPaste agradientT 180 b; mkPaste agradientC 180 rb]
  | alphaLayerLBC => LBC
  | alphaLayerRTC => RTC
  | alphaLayerABT => ABT
  | alphaLayerABL => RTC ++ [mkPaste agradientT 180 b; mkPaste agradientC 180 rb]
  | alphaLayerABR => LBC ++ [mkPaste agradientT 0 o; mkPaste agradientC 0 o]
  | alphaLayerABB => RTC ++ [mkPaste agradientL 0 o; mkPaste agradientC 0 o]
  | alphaLayerAA =>
      ABT ++ [mkPaste agradientT 0 o; mkPaste agradientC 0 o; mkPaste agradientC 270 r]
  end.

Definition is_gradient (gr : Gradient) (rot : Z) (p : Paste) : bool :=
  match paste_gradient p, gr with
  | agradientL, agradientL | agradientT, agradientT
  | agradientC, agradientC | agradientAsymC, agradientAsymC => paste_rotate p =? rot
  | _, _ => false
  end.

(** The layer carries the left fade, the top fade, the asymmetric corner. *)
Definition fades_left (g : Grid) (a : AlphaLayer) : bool :=
  existsb (is_gradient agradientL 0) (pastes g a).
Definition fades_top (g : Grid) (a : AlphaLayer) : bool :=
  existsb (is_gradient agradientT 0) (pastes g a).
Definition asymmetric_corner (g : Grid) (a : AlphaLayer) : bool :=
  existsb (is_gradient agradientAsymC 270) (pastes g a).

(** ** Seeds *)

(** [np.iinfo(np.uint32).max - 1] *)
Definition seedintlimit : Z := 4294967295 - 1.

(** [if seed < seedintlimit: seed += 1 else: seed = 0] *)
Definition next_seed (seed : Z) : Z :=
  if seed <? seedintlimit then seed + 1 else 0.

(** ** Crop rectangles *)

Definition Box : Type := (Z * Z * Z * Z)%type.  (* left, top, right, bottom *)

Definition emb_row_i (g : Grid) (tile : Z) : Z := tile / emb_tiles_x g.
Definition emb_column_i (g : Grid) (tile : Z) : Z := tile mod emb_tiles_x g.

Definition left_of (g : Grid) (col : Z) : Z :=
  if col + 1 =? emb_tiles_x g then initsuperwidth g - width g
  else round_int (col * (width g - overlap_size_x g)).

Definition top_of (g : Grid) (row : Z) : Z :=
  if row + 1 =? emb_tiles_y g then initsuperheight g - height g
  else round_int (row * (height g - overlap_size_y g)).

(** [(left, top, right, bottom)] handed to [initsuperimage.crop]. *)
Definition crop (g : Grid) (tile : Z) : Box :=
  let left := left_of g (emb_column_i g tile) in
  let top := top_of g (emb_row_i g tile) in
  (left, top, left + width g, top + height g).

Definition tile_count (g : Grid) : Z := emb_tiles_x g * emb_tiles_y g.

(** ** Mask selection while compositing *)

(** Sparse rerun ([if embiggen_tiles:]): position in the grid plus the two
    look-aheads [tile + 1] and [tile + emb_tiles_x].  [None] is a branch
    that makes no [putalpha] call: the tile keeps its own opaque alpha. *)
Definition rerun_alpha (g : Grid) (sel : list Z) (tile : Z) : option AlphaLayer :=
  let row := emb_row_i g tile in
  let col := emb_column_i g tile in
  let right := contains sel (tile + 1) in
  let down := contains sel (tile + emb_tiles_x g) in
  if row =? 0 then
    if col =? 0 then
      if right then (if negb down then Some alphaLayerB else None)
      else if down then Some alphaLayerR
      else Some alphaLayerRBC
    else if col =? emb_tiles_x g - 1 then
      if down then Some alphaLayerL else Some alphaLayerLBC
    else
      if right then (if down then Some alphaLayerL else Some alphaLayerLBC)
      else if down then Some alphaLayerLR
      else Some alphaLayerABT
  else if row =? emb_tiles_y g - 1 then
    if col =? 0 then
      if right then Some alphaLayerTaC else Some alphaLayerRTC
    else if col =? emb_tiles_x g - 1 then Some alphaLayerLTC
    else
      if right then Some alphaLayerLTaC else Some alphaLayerABB
  else
    if col =? 0 then
      if right then (if down then Some alphaLayerTaC else Some alphaLayerTB)
      else if down then Some alphaLayerRTC
      else Some alphaLayerABL
    else if col =? emb_tiles_x g - 1 then
      if down then Some alphaLayerLTC else Some alphaLayerABR
    else
      if right then (if down then Some alphaLayerLTaC else Some alphaLayerABR)
      else if down then Some alphaLayerABB
      else Some alphaLayerAA.

(** Normal tiling (the [else] of [if embiggen_tiles:]). *)
Definition tiling_alpha (g : Grid) (tile : Z) : AlphaLayer :=
  let row := emb_row_i g tile in
  let col := emb_column_i g tile in
  if (row =? 0) && (col >=? 1) then alphaLayerL
  else if (row >=? 1) && (col =? 0) then
    if col + 1 =? emb_tiles_x g then alphaLayerT else alphaLayerTaC
  else
    if col + 1 =? emb_tiles_x g then alphaLayerLTC else alphaLayerLTaC.

(** Where a tile is composited and with which alpha layer. *)
Definition place (g : Grid) (t : option (list Z)) (tile : Z)
    : (Z * Z) * option AlphaLayer :=
  let row := emb_row_i g tile in
  let col := emb_column_i g tile in
  if (row =? 0) && (col =? 0) && negb (truthy t) then ((0, 0), None)
  else
    let left := left_of g col in
    let top := top_of g row in
    ((left, top),
     match sparse t with
     | Some sel => rerun_alpha g sel tile
     | None => Some (tiling_alpha g tile)
     end).

Definition alpha_of (g : Grid) (t : option (list Z)) (tile : Z) : option AlphaLayer :=
  snd (place g t tile).

(** ** The two loops of [make_image] *)

(** One call of [gen_img2img.generate]: the tile it is for, the seed and the
    crop rectangle it receives. *)
Record Call : Type := mkCall {
  call_tile : Z;
  call_seed : Z;
  call_box : Box
}.

(** The first loop, over [range(emb_tiles_x * emb_tiles_y)]: the seed moves
    on for every tile but the first, then a tile outside a rerun selection is
    skipped, otherwise its crop is synthesised. *)
Fixpoint tile_loop (g : Grid) (t : option (list Z)) (tiles : list Z) (seed : Z)
    : list Call :=
  match tiles with
  | [] => []
  | tile :: rest =>
      let seed := if negb (tile =? 0) then next_seed seed else seed in
      match sparse t with
      | Some sel =>
          if negb (contains sel tile) then tile_loop g t rest seed
          else mkCall tile seed (crop g tile) :: tile_loop g t rest seed
      | None => mkCall tile seed (crop g tile) :: tile_loop g t rest seed
      end
  end.

Definition calls (g : Grid) (t : option (list Z)) (seed : Z) : list Call :=
  tile_loop g t (range (tile_count g)) seed.

(** [len(emb_tile_store) == (emb_tiles_x * emb_tiles_y) or
     (embiggen_tiles != [] and len(emb_tile_store) == len(embiggen_tiles))];
    [len(None)] raises. *)
Definition have_them_all (g : Grid) (t : option (list Z)) (stored : Z) : result bool :=
  if stored =? tile_count g then Ok true
  else
    match t with
    | None => Raise TypeError
    | Some [] => Ok false
    | Some l => Ok (stored =? Z.of_nat (length l))
    end.

Section Compositing.

(** Tile images, and the synthesis collaborator. *)
Variable Image : Type.
Variable generate : Z -> Box -> Image.

(** One [outputsuperimage.alpha_composite(intileimage, (left, top))]. *)
Record Layer : Type := mkLayer {
  layer_image : Image;
  layer_alpha : option AlphaLayer;
  layer_at : Z * Z
}.

(** The output image: its size, whether the init image was composited
    first, and the tiles layered on it, in order. *)
Record Canvas : Type := mkCanvas {
  canvas_size : Z * Z;
  canvas_seeded : bool;
  canvas_layers : list Layer
}.

Definition emb_tile_store (cs : list Call) : list Image :=
  map (fun c => generate (call_seed c) (call_box c)) cs.

(** The second loop: a rerun pops the store for every selected tile and
    passes over the others, normal tiling indexes it. *)
Fixpoint composite_loop (g : Grid) (t : option (list Z)) (tiles : list Z)
    (store : list Image) : result (list Layer) :=
  match tiles with
  | [] => Ok []
  | tile :: rest =>
      match sparse t with
      | Some sel =>
          if contains sel tile then
            match store with
            | [] => Raise IndexError
            | im :: store' =>
                ls <- composite_loop g t rest store' ;;
                Ok (mkLayer im (alpha_of g t tile) (fst (place g t tile)) :: ls)
            end
          else composite_loop g t rest store
      | None =>
          match nth_error store (Z.to_nat tile) with
          | None => Raise IndexError
          | Some im =>
              ls <- composite_loop g t rest store ;;
              Ok (mkLayer im (alpha_of g t tile) (fst (place g t tile)) :: ls)
          end
      end
  end.

(** From the sanity check to [return outputsuperimage]; the [else] branch
    only logs, so the name returned was never bound. *)
Definition composite (g : Grid) (t : option (list Z)) (store : list Image)
    : result Canvas :=
  ok <- have_them_all g t (Z.of_nat (length store)) ;;
  if ok : bool then
    ls <- composite_loop g t (range (tile_count g)) store ;;
    Ok (mkCanvas (initsuperwidth g, initsuperheight g) (truthy t) ls)
  else Raise UnboundLocalError.

Definition make_image (g : Grid) (t : option (list Z)) (seed : Z) : result Canvas :=
  composite g t (emb_tile_store (calls g t seed)).

End Compositing.

Arguments mkLayer {Image}.
Arguments layer_image {Image}.
Arguments layer_alpha {Image}.
Arguments layer_at {Image}.
Arguments mkCanvas {Image}.
Arguments canvas_size {Image}.
Arguments canvas_seeded {Image}.
Arguments canvas_layers {Image}.
Arguments emb_tile_store {Image}.
Arguments composite_loop {Image}.
Arguments composite {Image}.
Arguments make_image {Image}.

(** ** Vocabulary of the specification *)

(** [ceilDiv(a, b) = -floorDiv(-a, b)], for a non-zero divisor. *)
Definition ceilDiv (a b : Z) : Z := - ((- a) / b).

(** The full-grid rule as the specification tabulates it, on
    [(row == 0, col == 0, col == lastCol)]; [None] is the opaque tile. *)
Definition full_grid_rule (top_row left_col last_col : bool) : option AlphaLayer :=
  if top_row then
    if left_col then None else Some alphaLayerL
  else if left_col then
    if last_col then Some alphaLayerT else Some alphaLayerTaC
  else
    if last_col then Some alphaLayerLTC else Some alphaLayerLTaC.

(** A successor that wraps exactly at the 32-bit unsigned maximum. *)
Definition uint32_successor (s : Z) : Z :=
  if s <? 4294967295 then s + 1 else 0.

(** The seed after [tile] advances of the counter. *)
Definition seed_at (seed : Z) (tile : Z) : Z :=
  Nat.iter (Z.to_nat tile) next_seed seed.

(** The tile is generated: always in normal tiling, when selected in a rerun. *)
Definition selected (t : option (list Z)) (tile : Z) : bool :=
  match sparse t with
  | Some sel => contains sel tile
  | None => true
  end.

(** Pixel [(x, y)] lies in the box. *)
Definition inside (b : Box) (x y : Z) : Prop :=
  let '(x0, y0, x1, y1) := b in
  x0 <= x < x1 /\ y0 <= y < y1.

Definition in_range (g : Grid) (i : Z) : bool :=
  (0 <=? i) && (i <? tile_count g).

(** The number of rendered tiles a mode calls for: the grid size in normal
    tiling, the selection size in a rerun. *)
Definition expected_count (g : Grid) (t : option (list Z)) : Z :=
  match sparse t with
  | Some sel => Z.of_nat (length sel)
  | None => tile_count g
  end.

(** ** Sample runs *)

(** Synthesis that records what it was asked for. *)
Definition record_call (seed : Z) (box : Box) : Z * Box := (seed, box).

(** 1024x512 from 512x512 tiles, a quarter overlap: three tiles in a row. *)
Definition grid_3x1 : Grid := mkGrid 1024 512 512 512 128 128 3 1.

(** 896x512 from 512x512 tiles: two tiles in a row. *)
Definition grid_2x1 : Grid := mkGrid 896 512 512 512 128 128 2 1.

(** 1280x1280 from 512x512 tiles: three by three. *)
Definition grid_3x3 : Grid := mkGrid 1280 1280 512 512 128 128 3 3.

(** ** The [embiggen] argument *)

(** The sanity checks on [embiggen] at the head of [get_make_image]: scaling
    factor, ESRGAN strength, overlap.  [embiggen[0]] on an empty list raises. *)
Definition sanitise (embiggen : option (list Q)) : result (list Q) :=
  l1 <- match embiggen with
        | None => Ok [1%Q]
        | Some [] => Raise IndexError
        | Some (e0 :: r) => Ok ((if Qlt_le_dec e0 0 then 1%Q else e0) :: r)
        end ;;
  let l2 :=
    match l1 with
    | e0 :: e1 :: r =>
        e0 :: (if Qlt_le_dec 1 e1 then (3 # 4)%Q
               else if Qlt_le_dec e1 0 then (3 # 4)%Q else e1) :: r
    | short => short ++ [(3 # 4)%Q]
    end in
  Ok match l2 with
     | e0 :: e1 :: e2 :: r =>
         e0 :: e1 :: (if Qlt_le_dec e2 0 then (1 # 4)%Q else e2) :: r
     | short => short ++ [(1 # 4)%Q]
     end.

(** The checked list is what the later stages read. *)
Definition well_formed (l : list Q) : Prop :=
  match l with
  | e0 :: e1 :: e2 :: _ => (0 <= e0 /\ 0 <= e1 <= 1 /\ 0 <= e2)%Q
  | _ => False
  end.

(** ** Sides of an alpha layer *)

Definition fades_right (g : Grid) (a : AlphaLayer) : bool :=
  existsb (is_gradient agradientL 180) (pastes g a).
Definition fades_bottom (g : Grid) (a : AlphaLayer) : bool :=
  existsb (is_gradient agradientT 180) (pastes g a).

(** A tile without [putalpha] fades nowhere. *)
Definition applied (f : AlphaLayer -> bool) (o : option AlphaLayer) : bool :=
  match o with
  | Some a => f a
  | None => false
  end.

(** ** What a run composites *)

Definition origin (b : Box) : Z * Z :=
  let '(x0, y0, _, _) := b in (x0, y0).

(** The layer of a tile whose image is [f tile]. *)
Definition tile_layer {Image : Type} (f : Z -> Image) (g : Grid)
    (t : option (list Z)) (tile : Z) : Layer Image :=
  mkLayer (f tile) (alpha_of g t tile) (fst (place g t tile)).

(** The layer a synthesis call ends up as. *)
Definition layer_of_call {Image : Type} (generate : Z -> Box -> Image)
    (g : Grid) (t : option (list Z)) (c : Call) : Layer Image :=
  mkLayer (generate (call_seed c) (call_box c))
          (alpha_of g t (call_tile c)) (fst (place g t (call_tile c))).

(** * Properties *)

(** ** Arithmetic of the tile count *)

Lemma In_range (n i : Z) : In i (range n) <-> 0 <= i < n.
Proof.
  unfold range. rewrite in_map_iff. split.
  - intros [k [<- Hk]]. apply in_seq in Hk. lia.
  - intros H. exists (Z.to_nat i). split; [lia|]. apply in_seq. lia.
Qed.

Lemma ceilDiv_bounds (a b : Z) :
  0 < b -> (ceilDiv a b - 1) * b < a <= ceilDiv a b * b.
Proof.
  intros Hb. unfold ceilDiv.
  pose proof (Z.div_mod (- a) b) as Hdm.
  pose proof (Z.mod_pos_bound (- a) b Hb) as Hm.
  nia.
Qed.

Lemma ceilDiv_pos (a b : Z) : 0 < b -> 0 < a -> 1 <= ceilDiv a b.
Proof.
  intros Hb Ha. pose proof (ceilDiv_bounds a b Hb). nia.
Qed.

Lemma ceildiv_ceilDiv (a b : Z) : b <> 0 -> ceildiv a b = Ok (ceilDiv a b).
Proof.
  intros Hb. unfold ceildiv, floordiv, ceilDiv.
  destruct (b =? 0) eqn:E; [lia|]. simpl. f_equal; lia.
Qed.

Lemma emb_tiles_value (superdim dim overlap : Z) :
  overlap < dim ->
  emb_tiles superdim dim overlap =
    Ok (if superdim >? dim then 1 + ceilDiv (superdim - dim) (dim - overlap) else 1).
Proof.
  intros Ho. unfold emb_tiles.
  destruct (superdim - dim >? 0) eqn:E; destruct (superdim >? dim) eqn:E'; try lia.
  - rewrite ceildiv_ceilDiv by lia. unfold bind. f_equal. lia.
  - reflexivity.
Qed.

(** The count along one axis is the least number of strides that reaches the
    far edge. *)
Lemma emb_tiles_strides (superdim dim overlap n : Z) :
  dim <= superdim -> 0 <= overlap < dim ->
  emb_tiles superdim dim overlap = Ok n ->
  1 <= n /\ superdim - dim <= (n - 1) * (dim - overlap) /\
  (n = 1 -> superdim = dim) /\
  (2 <= n -> (n - 2) * (dim - overlap) < superdim - dim).
Proof.
  intros Hd Ho H. rewrite emb_tiles_value in H by lia.
  destruct (superdim >? dim) eqn:E.
  - pose proof (ceilDiv_bounds (superdim - dim) (dim - overlap) ltac:(lia)).
    pose proof (ceilDiv_pos (superdim - dim) (dim - overlap) ltac:(lia) ltac:(lia)).
    set (c := ceilDiv (superdim - dim) (dim - overlap)) in *.
    assert (n = 1 + c) by congruence. subst n.
    replace (1 + c - 1) with c by lia. replace (1 + c - 2) with (c - 1) by lia.
    repeat split; intros; lia.
  - assert (n = 1) by congruence. subst n. repeat split; lia.
Qed.

(** One axis: the columns (or rows) tile the far edge's interval exactly. *)
Lemma axis_cover (superdim dim overlap n x : Z) :
  dim <= superdim -> 0 <= overlap < dim ->
  emb_tiles superdim dim overlap = Ok n ->
  0 <= x < superdim <->
  exists c, 0 <= c < n /\
    (if c + 1 =? n then superdim - dim else round_int (c * (dim - overlap))) <= x
      < (if c + 1 =? n then superdim - dim else round_int (c * (dim - overlap))) + dim.
Proof.
  intros Hd Ho H.
  destruct (emb_tiles_strides _ _ _ _ Hd Ho H) as (Hn & Hreach & _ & Hshort).
  unfold round_int. split.
  - intros Hx. destruct (Z_lt_le_dec x (superdim - dim)) as [Hlt|Hge].
    + exists (x / (dim - overlap)).
      pose proof (Z.div_mod x (dim - overlap) ltac:(lia)) as Hdm.
      pose proof (Z.mod_pos_bound x (dim - overlap) ltac:(lia)) as Hm.
      assert (0 <= x / (dim - overlap)) by (apply Z.div_pos; lia).
      assert (x / (dim - overlap) < n - 1) by nia.
      destruct (x / (dim - overlap) + 1 =? n) eqn:E; [lia|]. nia.
    + exists (n - 1). replace (n - 1 + 1) with n by lia. rewrite Z.eqb_refl. lia.
  - intros [c [Hc Hx]]. destruct (c + 1 =? n) eqn:E; [lia|].
    assert (2 <= n) by lia. specialize (Hshort ltac:(lia)). nia.
Qed.

Lemma plan_ok_iff (sw sh w h ox oy : Z) :
  w <= sw -> h <= sh -> 0 <= ox < w -> 0 <= oy < h ->
  is_ok (plan sw sh w h ox oy) = true <-> w < sw \/ h < sh.
Proof.
  intros Hw Hh Hox Hoy. unfold plan.
  rewrite !emb_tiles_value by lia. unfold bind.
  pose proof (ceilDiv_pos (sw - w) (w - ox)) as Hx.
  pose proof (ceilDiv_pos (sh - h) (h - oy)) as Hy.
  set (cx := ceilDiv (sw - w) (w - ox)) in *.
  set (cy := ceilDiv (sh - h) (h - oy)) in *.
  match goal with
  | |- context [if ?c then Ok _ else Raise _] => destruct c eqn:E
  end; cbn [is_ok].
  - split; [intros _|reflexivity].
    apply orb_true_iff in E.
    destruct (sw >? w) eqn:E1; destruct (sh >? h) eqn:E2; lia.
  - split; [discriminate|intros Hlarger].
    apply orb_false_iff in E.
    destruct (sw >? w) eqn:E1; destruct (sh >? h) eqn:E2; lia.
Qed.

(** ** The first loop, in closed form *)

Lemma seed_at_succ (seed : Z) (a : nat) :
  seed_at seed (Z.of_nat (S a)) = next_seed (seed_at seed (Z.of_nat a)).
Proof.
  unfold seed_at. rewrite !Nat2Z.id. reflexivity.
Qed.

Lemma tile_loop_from (g : Grid) (t : option (list Z)) (seed : Z) (len a : nat) :
  tile_loop g t (map Z.of_nat (seq (S a) len)) (seed_at seed (Z.of_nat a)) =
  map (fun tile => mkCall tile (seed_at seed tile) (crop g tile))
      (filter (selected t) (map Z.of_nat (seq (S a) len))).
Proof.
  revert a. induction len as [|len IH]; intros a; [reflexivity|].
  cbn [seq map tile_loop filter].
  assert (Hnz : negb (Z.of_nat (S a) =? 0) = true)
    by (apply negb_true_iff, Z.eqb_neq; lia).
  rewrite Hnz, <- seed_at_succ, IH.
  unfold selected. destruct (sparse t) as [sel|]; [|reflexivity].
  destruct (contains sel (Z.of_nat (S a))); reflexivity.
Qed.

(** Every generated tile gets the crop of its index and the seed advanced
    once per index before it, selected or not. *)
Lemma calls_closed_form (g : Grid) (t : option (list Z)) (seed : Z) :
  calls g t seed =
  map (fun tile => mkCall tile (seed_at seed tile) (crop g tile))
      (filter (selected t) (range (tile_count g))).
Proof.
  unfold calls, range. destruct (Z.to_nat (tile_count g)) as [|k]; [reflexivity|].
  cbn [seq map tile_loop filter]. cbn [Z.of_nat Z.eqb negb].
  pose proof (tile_loop_from g t seed k 0) as Hrest.
  change (seed_at seed (Z.of_nat 0)) with seed in Hrest. rewrite Hrest.
  unfold selected. destruct (sparse t) as [sel|]; [|reflexivity].
  destruct (contains sel 0); reflexivity.
Qed.

Lemma In_calls (g : Grid) (t : option (list Z)) (seed : Z) (c : Call) :
  In c (calls g t seed) <->
  0 <= call_tile c < tile_count g /\ selected t (call_tile c) = true /\
  call_seed c = seed_at seed (call_tile c) /\ call_box c = crop g (call_tile c).
Proof.
  rewrite calls_closed_form, in_map_iff. split.
  - intros [tile [<- Hin]]. apply filter_In in Hin. destruct Hin as [Hin Hsel].
    apply In_range in Hin. cbn. auto.
  - intros (Hr & Hsel & Hseed & Hbox). exists (call_tile c). split.
    + destruct c as [tl sd bx]. cbn in *. subst. reflexivity.
    + apply filter_In. split; [apply In_range|]; assumption.
Qed.

Lemma selected_full (t : option (list Z)) (tile : Z) :
  sparse t = None -> selected t tile = true.
Proof. unfold selected. intros ->. reflexivity. Qed.

Lemma cell_of_tile (tx row col : Z) :
  0 <= col < tx -> (row * tx + col) / tx = row /\ (row * tx + col) mod tx = col.
Proof.
  intros Hc. split.
  - rewrite Z.div_add_l by lia. rewrite Z.div_small by lia. lia.
  - rewrite Z.add_comm, Z.mod_add by lia. apply Z.mod_small. lia.
Qed.

Lemma cell_bounds (tx ty tile : Z) :
  0 < tx -> 0 <= tile < tx * ty ->
  0 <= tile mod tx < tx /\ 0 <= tile / tx < ty.
Proof.
  intros Htx Ht.
  pose proof (Z.mod_pos_bound tile tx Htx).
  pose proof (Z.div_mod tile tx ltac:(lia)).
  assert (0 <= tile / tx) by (apply Z.div_pos; lia).
  repeat split; try lia. nia.
Qed.

(** ** Tile grid *)

(** C8: along an axis whose super-image is at least one tile long, with
    [0 <= overlap < tile], the tile count is [1 + ceilDiv(super - tile,
    tile - overlap)] when the super-image is longer than the tile and [1]
    otherwise; it is [1] exactly when both lengths are equal.  Columns take
    the widths and [overlap_size_x], rows the heights and [overlap_size_y]. *)
Theorem tile_count_formula (superdim dim overlap : Z) :
  dim <= superdim -> 0 <= overlap < dim ->
  ceildiv (superdim - dim) (dim - overlap) =
    Ok (ceilDiv (superdim - dim) (dim - overlap)) /\
  emb_tiles superdim dim overlap =
    Ok (if superdim >? dim
        then 1 + ceilDiv (superdim - dim) (dim - overlap) else 1) /\
  (emb_tiles superdim dim overlap = Ok 1 <-> superdim = dim).
Proof.
  intros Hd Ho. split; [apply ceildiv_ceilDiv; lia|].
  split; [apply emb_tiles_value; lia|].
  split.
  - intros H. apply emb_tiles_strides in H; try lia.
  - intros ->. unfold emb_tiles. rewrite Z.sub_diag. reflexivity.
Qed.

Lemma tile_count_formula_witness :
  emb_tiles 1024 512 128 = Ok 3 /\ (emb_tiles 1024 512 128 = Ok 1 <-> 1024 = 512).
Proof.
  destruct (tile_count_formula 1024 512 128) as (_ & Hv & Hone); [lia | lia |].
  split; [exact Hv | exact Hone].
Defined.

(** The geometry of a grid with the tile counts of [emb_tiles]: the crops of
    the tiling loop cover exactly the pixels of the super-image, each is one
    tile wide and high, and those of the last column and last row end on the
    right and bottom edge. *)
Lemma grid_crops_cover (sw sh w h ox oy : Z) :
  w <= sw -> h <= sh -> 0 <= ox < w -> 0 <= oy < h ->
  exists tx ty,
    emb_tiles sw w ox = Ok tx /\ emb_tiles sh h oy = Ok ty /\
    forall (t : option (list Z)) (seed : Z),
      sparse t = None ->
      let g := mkGrid sw sh w h ox oy tx ty in
      (forall x y,
         0 <= x < sw /\ 0 <= y < sh <->
         exists c, In c (calls g t seed) /\ inside (call_box c) x y) /\
      (forall c, In c (calls g t seed) ->
         let '(x0, y0, x1, y1) := call_box c in
         x1 - x0 = w /\ y1 - y0 = h /\
         (emb_column_i g (call_tile c) = tx - 1 -> x1 = sw) /\
         (emb_row_i g (call_tile c) = ty - 1 -> y1 = sh)).
Proof.
  intros Hw Hh Hox Hoy.
  destruct (emb_tiles sw w ox) as [tx|e] eqn:Ex;
    [|rewrite emb_tiles_value in Ex by lia; discriminate].
  destruct (emb_tiles sh h oy) as [ty|e] eqn:Ey;
    [|rewrite emb_tiles_value in Ey by lia; discriminate].
  exists tx, ty. do 2 (split; [reflexivity|]).
  intros t seed Ht g.
  destruct (emb_tiles_strides _ _ _ _ Hw Hox Ex) as (Htx & _).
  destruct (emb_tiles_strides _ _ _ _ Hh Hoy Ey) as (Hty & _).
  split.
  - intros x y. split.
    + intros [Hx Hy].
      apply (axis_cover sw w ox tx x Hw Hox Ex) in Hx. destruct Hx as [col [Hcol Hx]].
      apply (axis_cover sh h oy ty y Hh Hoy Ey) in Hy. destruct Hy as [row [Hrow Hy]].
      destruct (cell_of_tile tx row col Hcol) as [Hr Hc].
      exists (mkCall (row * tx + col) (seed_at seed (row * tx + col))
                     (crop g (row * tx + col))).
      split.
      * apply In_calls. cbn [call_tile call_seed call_box].
        split; [unfold tile_count, g; cbn [emb_tiles_x emb_tiles_y]; nia|].
        split; [apply selected_full, Ht|]. split; reflexivity.
      * unfold inside, crop, left_of, top_of, emb_row_i, emb_column_i.
        cbn [call_box emb_tiles_x emb_tiles_y initsuperwidth initsuperheight
             width height overlap_size_x overlap_size_y g].
        rewrite Hr, Hc. split; assumption.
    + intros [c [Hin Hxy]]. apply In_calls in Hin.
      destruct Hin as (Hr & _ & _ & Hbox). rewrite Hbox in Hxy.
      unfold tile_count, g in Hr. cbn [emb_tiles_x emb_tiles_y] in Hr.
      destruct (cell_bounds tx ty (call_tile c) ltac:(lia) Hr) as [Hc Hrw].
      unfold inside, crop, left_of, top_of, emb_row_i, emb_column_i in Hxy.
      cbn [emb_tiles_x emb_tiles_y initsuperwidth initsuperheight
           width height overlap_size_x overlap_size_y g] in Hxy.
      destruct Hxy as [Hx Hy]. split.
      * apply (axis_cover sw w ox tx x Hw Hox Ex). eauto.
      * apply (axis_cover sh h oy ty y Hh Hoy Ey). eauto.
  - intros c Hin. apply In_calls in Hin. destruct Hin as (_ & _ & _ & ->).
    unfold crop, left_of, top_of, emb_row_i, emb_column_i.
    cbn [emb_tiles_x emb_tiles_y initsuperwidth initsuperheight
         width height overlap_size_x overlap_size_y g].
    repeat split; try lia.
    + intros ->. replace (tx - 1 + 1) with tx by lia. rewrite Z.eqb_refl. lia.
    + intros ->. replace (ty - 1 + 1) with ty by lia. rewrite Z.eqb_refl. lia.
Qed.

Lemma alpha_layers_built (w h ox oy : Z) :
  1 <= ox -> 1 <= oy -> 1 <= w -> 1 <= h -> alpha_layers w h ox oy = Ok tt.
Proof.
  intros Hox Hoy Hw Hh. unfold alpha_layers, resize. cbn [fst snd].
  destruct (ox <? 1) eqn:E1; [lia|]. destruct (oy <? 1) eqn:E2; [lia|].
  destruct (w <? 1) eqn:E3; [lia|]. destruct (h <? 1) eqn:E4; [lia|].
  reflexivity.
Qed.

(** C3, as the code has it: for a super-image at least one tile wide and
    high and larger than one tile along some axis, and overlaps of at least
    one pixel and smaller than the tile, the closure is built, the crop
    rectangles of the tiling loop cover exactly the pixels of the
    super-image, each is one tile wide and high, and those of the last
    column and last row end on the right and bottom edge. *)
Theorem planned_crops_cover (sw sh w h ox oy : Z) :
  w <= sw -> h <= sh -> 1 <= ox < w -> 1 <= oy < h -> w < sw \/ h < sh ->
  exists g,
    prepare sw sh w h ox oy = Ok g /\
    (initsuperwidth g, initsuperheight g, width g, height g) = (sw, sh, w, h) /\
    (overlap_size_x g, overlap_size_y g) = (ox, oy) /\
    forall (t : option (list Z)) (seed : Z),
      sparse t = None ->
      (forall x y,
         0 <= x < sw /\ 0 <= y < sh <->
         exists c, In c (calls g t seed) /\ inside (call_box c) x y) /\
      (forall c, In c (calls g t seed) ->
         let '(x0, y0, x1, y1) := call_box c in
         x1 - x0 = w /\ y1 - y0 = h /\
         (emb_column_i g (call_tile c) = emb_tiles_x g - 1 -> x1 = sw) /\
         (emb_row_i g (call_tile c) = emb_tiles_y g - 1 -> y1 = sh)).
Proof.
  intros Hw Hh Hox Hoy Hlarger.
  assert (Hox' : 0 <= ox < w) by lia. assert (Hoy' : 0 <= oy < h) by lia.
  destruct (grid_crops_cover sw sh w h ox oy Hw Hh Hox' Hoy')
    as (tx & ty & Ex & Ey & Hcover).
  destruct (emb_tiles_strides _ _ _ _ Hw Hox' Ex) as (Htx & _ & Hx1 & _).
  destruct (emb_tiles_strides _ _ _ _ Hh Hoy' Ey) as (Hty & _ & Hy1 & _).
  exists (mkGrid sw sh w h ox oy tx ty).
  split; [|split; [reflexivity|split; [reflexivity|exact Hcover]]].
  unfold prepare, plan. rewrite Ex, Ey. cbn [bind].
  assert (E : (tx >? 1) || (ty >? 1) = true).
  { apply orb_true_iff. destruct (Z.eq_dec tx 1) as [E1|E1];
      [destruct (Z.eq_dec ty 1) as [E2|E2]; [lia|right; lia]|left; lia]. }
  rewrite E, alpha_layers_built by lia. reflexivity.
Qed.

Lemma planned_crops_cover_witness :
  exists g, prepare 1024 512 512 512 128 128 = Ok g /\
    forall x y,
      0 <= x < 1024 /\ 0 <= y < 512 <->
      exists c, In c (calls g None 0) /\ inside (call_box c) x y.
Proof.
  destruct (planned_crops_cover 1024 512 512 512 128 128) as (g & Hg & _ & _ & H);
    [lia | lia | lia | lia | lia |].
  exists g. split; [exact Hg|]. exact (proj1 (H None 0 eq_refl)).
Defined.

(** C3 fails as stated: a super-image of exactly one tile, and an overlap of
    zero pixels, are both within the stated sizes, but the first stops at
    the sanity assertion and the second when the left gradient is resized
    to a width of zero; no closure is built and no crop is computed. *)
Lemma no_crops_without_a_closure :
  (512 <= 512 /\ 0 <= 128 < 512) /\
  prepare 512 512 512 512 128 128 = Raise AssertionError /\
  (512 <= 1024 /\ 512 <= 512 /\ 0 <= 0 < 512) /\
  prepare 1024 512 512 512 0 0 = Raise ValueError /\
  get_make_image (Some 0%Q) None 1024 512 512 512 = Raise ValueError /\
  ~ (exists g, prepare 512 512 512 512 128 128 = Ok g) /\
  ~ (exists g, prepare 1024 512 512 512 0 0 = Ok g).
Proof.
  repeat split; try lia; try reflexivity; intros [g Hg]; discriminate Hg.
Qed.

(** ** Mask selection *)

(** C1: in normal tiling the alpha layer of a tile is the tabulated function
    of [(row == 0, col == 0, col == lastCol)]: none for the top-left tile,
    the left fade on the rest of the top row, top fade with the asymmetric
    corner down the left column (plain top fade when that column is also the
    last), and the left-top-corner layer elsewhere, asymmetric unless the
    tile is in the last column. *)
Theorem full_grid_mask_rule (g : Grid) (t : option (list Z)) (tile : Z) :
  sparse t = None -> 0 < emb_tiles_x g -> 0 <= tile ->
  alpha_of g t tile =
    full_grid_rule (emb_row_i g tile =? 0) (emb_column_i g tile =? 0)
                   (emb_column_i g tile =? emb_tiles_x g - 1).
Proof.
  intros Ht Htx Htile.
  unfold alpha_of, place, truthy, tiling_alpha, full_grid_rule. rewrite Ht.
  assert (Hrow : 0 <= emb_row_i g tile) by (apply Z.div_pos; lia).
  pose proof (Z.mod_pos_bound tile (emb_tiles_x g) Htx) as Hcol.
  fold (emb_column_i g tile) in Hcol.
  destruct (emb_row_i g tile =? 0) eqn:Er;
    destruct (emb_column_i g tile =? 0) eqn:Ec; cbn [andb negb snd].
  - reflexivity.
  - destruct (emb_column_i g tile >=? 1) eqn:E1; [reflexivity|lia].
  - destruct (emb_row_i g tile >=? 1) eqn:E1; [|lia].
    destruct (emb_column_i g tile + 1 =? emb_tiles_x g) eqn:E2;
      destruct (emb_column_i g tile =? emb_tiles_x g - 1) eqn:E3;
      try reflexivity; lia.
  - destruct (emb_row_i g tile >=? 1) eqn:E1; cbn [andb];
      destruct (emb_column_i g tile + 1 =? emb_tiles_x g) eqn:E2;
      destruct (emb_column_i g tile =? emb_tiles_x g - 1) eqn:E3;
      try reflexivity; lia.
Qed.

Lemma full_grid_mask_rule_witness :
  alpha_of grid_3x1 None 2 = Some alphaLayerL.
Proof.
  rewrite (full_grid_mask_rule grid_3x1 None 2);
    [reflexivity | reflexivity | reflexivity | discriminate].
Defined.

(** C4: a 1024x512 super-image, 512x512 tiles and an overlap ratio of 0.25
    give overlaps of 128 pixels, a grid of three columns and one row, the
    crops (0,0,512,512), (384,0,896,512) and (512,0,1024,512), and in normal
    tiling no alpha layer on tile 0 and the left fade on tiles 1 and 2. *)
Theorem end_to_end_example :
  overlap_size (embiggen_2 (Some (1 # 4)%Q)) 512 512 = (128, 128) /\
  get_make_image (Some (1 # 4)%Q) None 1024 512 512 512 = Ok (grid_3x1, None) /\
  emb_tiles_x grid_3x1 = 3 /\ emb_tiles_y grid_3x1 = 1 /\ tile_count grid_3x1 = 3 /\
  (forall seed,
     map call_tile (calls grid_3x1 None seed) = [0; 1; 2] /\
     map call_box (calls grid_3x1 None seed) =
       [(0, 0, 512, 512); (384, 0, 896, 512); (512, 0, 1024, 512)]) /\
  map (alpha_of grid_3x1 None) (range (tile_count grid_3x1)) =
    [None; Some alphaLayerL; Some alphaLayerL] /\
  map (fun tile => fst (place grid_3x1 None tile)) (range (tile_count grid_3x1)) =
    [(0, 0); (384, 0); (512, 0)].
Proof.
  repeat split; try reflexivity.
Qed.

(** C2, as the code has it: on a three by three grid with the rerun
    selection 0, 1, 3, 4, tile 0 has both look-aheads present and falls in
    the branch that makes no [putalpha] call: it is composited with its own
    opaque alpha, at the origin. *)
Theorem rerun_top_left_both_present (g : Grid) :
  emb_tiles_x g = 3 -> emb_tiles_y g = 3 ->
  normalise (Some [1; 2; 4; 5]) = Some [0; 1; 3; 4] /\
  alpha_of g (Some [0; 1; 3; 4]) 0 = None.
Proof.
  intros Hx Hy. split; [reflexivity|].
  unfold alpha_of, place, rerun_alpha, emb_row_i, emb_column_i.
  rewrite Hx. reflexivity.
Qed.

Lemma rerun_top_left_both_present_witness :
  alpha_of grid_3x3 (Some [0; 1; 3; 4]) 0 = None.
Proof.
  exact (proj2 (rerun_top_left_both_present grid_3x3 eq_refl eq_refl)).
Defined.

(** C2 fails as stated: the alpha layer chosen for tile 0 is no layer at
    all, so it is not one that leaves top and left alone and carries the
    asymmetric corner. *)
Lemma rerun_top_left_not_asymmetric :
  get_make_image (Some (1 # 4)%Q) (Some [1; 2; 4; 5]) 1280 1280 512 512
    = Ok (grid_3x3, Some [0; 1; 3; 4]) /\
  ~ (exists a, alpha_of grid_3x3 (Some [0; 1; 3; 4]) 0 = Some a /\
               asymmetric_corner grid_3x3 a = true /\
               fades_top grid_3x3 a = false /\ fades_left grid_3x3 a = false).
Proof.
  split; [reflexivity|]. intros [a [Ha _]]. discriminate Ha.
Qed.

(** ** Overlap against tile size *)

Lemma emb_tiles_zero_divisor (superdim dim overlap : Z) :
  dim < superdim -> overlap = dim ->
  emb_tiles superdim dim overlap = Raise ZeroDivisionError.
Proof.
  intros Hd ->. unfold emb_tiles, ceildiv, floordiv.
  destruct (superdim - dim >? 0) eqn:E; [|lia].
  rewrite Z.sub_diag. reflexivity.
Qed.

Lemma emb_tiles_defined (superdim dim overlap : Z) :
  (dim < superdim -> overlap <> dim) ->
  exists n, emb_tiles superdim dim overlap = Ok n /\
            ((dim < superdim -> dim <= overlap) -> n <= 1).
Proof.
  intros Hnz. unfold emb_tiles, ceildiv, floordiv.
  destruct (superdim - dim >? 0) eqn:E.
  - destruct (dim - overlap =? 0) eqn:E0; [lia|]. unfold bind.
    eexists. split; [reflexivity|]. intros Hover.
    assert (0 <= - (superdim - dim) / (dim - overlap)).
    { rewrite <- Z.div_opp_opp by lia. apply Z.div_pos; lia. }
    lia.
  - exists 1. split; [reflexivity|lia].
Qed.

(** C5, as the code has it: nothing compares the overlap with the tile size.
    Planning stops, before any tile is synthesised, on a division by zero
    when the overlap equals the tile dimension along an axis where the
    super-image is larger than one tile, and on a division by zero or the
    sanity assertion when the overlap is at least the tile dimension along
    every axis where the super-image is larger than one tile; a plan that
    succeeds divided by non-zero divisors, and a divisor is positive exactly
    when the overlap is smaller than the tile. *)
Theorem overlap_not_validated (sw sh w h ox oy : Z) :
  ((w < sw /\ ox = w) \/ (h < sh /\ oy = h) ->
   plan sw sh w h ox oy = Raise ZeroDivisionError) /\
  ((w < sw -> w <= ox) /\ (h < sh -> h <= oy) ->
   plan sw sh w h ox oy = Raise ZeroDivisionError \/
   plan sw sh w h ox oy = Raise AssertionError) /\
  (forall g, plan sw sh w h ox oy = Ok g ->
     (w < sw -> w - ox <> 0) /\ (h < sh -> h - oy <> 0)) /\
  (0 < w - ox <-> ox < w) /\ (0 < h - oy <-> oy < h).
Proof.
  assert (Hzero : (w < sw /\ ox = w) \/ (h < sh /\ oy = h) ->
                  plan sw sh w h ox oy = Raise ZeroDivisionError).
  { intros Hcase. unfold plan.
    destruct (Z_lt_le_dec w sw) as [Hw|Hw];
      [destruct (Z.eq_dec ox w) as [Hox|Hox];
         [rewrite emb_tiles_zero_divisor by assumption; reflexivity|]|].
    all: destruct (emb_tiles_defined sw w ox ltac:(lia)) as (tx & -> & _).
    all: unfold bind at 1.
    all: rewrite emb_tiles_zero_divisor by lia; reflexivity. }
  split; [exact Hzero|]. split; [|split; [|lia]].
  - intros [Hx Hy]. unfold plan.
    destruct (Z_lt_le_dec w sw) as [Hw|Hw];
      [destruct (Z.eq_dec ox w) as [Hox|Hox];
         [rewrite emb_tiles_zero_divisor by assumption; left; reflexivity|]|].
    all: destruct (emb_tiles_defined sw w ox ltac:(lia)) as (tx & -> & Htx).
    all: unfold bind at 1.
    all: destruct (Z_lt_le_dec h sh) as [Hh|Hh];
      [destruct (Z.eq_dec oy h) as [Hoy|Hoy];
         [rewrite emb_tiles_zero_divisor by assumption; left; reflexivity|]|].
    all: destruct (emb_tiles_defined sh h oy ltac:(lia)) as (ty & -> & Hty).
    all: unfold bind.
    all: assert (tx <= 1 /\ ty <= 1) as [Hx1 Hy1]
        by (split; [apply Htx|apply Hty]; lia).
    all: destruct (tx >? 1) eqn:E1; [lia|];
         destruct (ty >? 1) eqn:E2; [lia|]; right; reflexivity.
  - intros g Hg. split; intros Hlt Hz.
    + rewrite Hzero in Hg by (left; lia). discriminate.
    + rewrite Hzero in Hg by (right; lia). discriminate.
Qed.

Lemma overlap_not_validated_witness :
  plan 1024 512 512 512 512 512 = Raise ZeroDivisionError.
Proof.
  apply (proj1 (overlap_not_validated 1024 512 512 512 512 512)).
  left. split; [lia|reflexivity].
Defined.

(** C5 fails as stated: with 512x768 tiles and an overlap of 700 pixels on a
    640x1536 super-image the overlap exceeds the tile width, the column
    count divides by -188, planning succeeds with a grid of one column and
    thirteen rows, and all thirteen tiles are synthesised and composited. *)
Lemma oversize_overlap_is_planned :
  (512 <= 700 /\ 512 < 640) /\
  ceildiv (640 - 512) (512 - 700) = Ok 0 /\
  get_make_image (Some (700 # 1)%Q) None 640 1536 512 768
    = Ok (mkGrid 640 1536 512 768 700 700 1 13, None) /\
  is_ok (plan 640 1536 512 768 700 700) = true /\
  length (calls (mkGrid 640 1536 512 768 700 700 1 13) None 0) = 13%nat /\
  is_ok (make_image record_call (mkGrid 640 1536 512 768 700 700 1 13) None 0) = true.
Proof.
  repeat split; try lia; vm_compute; reflexivity.
Qed.

(** ** Counting generated tiles *)

Lemma contains_In (l : list Z) (x : Z) : contains l x = true <-> In x l.
Proof.
  unfold contains. rewrite existsb_exists. split.
  - intros [y [Hy E]]. apply Z.eqb_eq in E. subst. exact Hy.
  - intros H. exists x. split; [exact H|apply Z.eqb_refl].
Qed.

Lemma range_NoDup (n : Z) : NoDup (range n).
Proof.
  unfold range. apply Finite.Injective_map_NoDup; [|apply seq_NoDup].
  intros a b. apply Nat2Z.inj.
Qed.

Lemma range_length (n : Z) : length (range n) = Z.to_nat n.
Proof. unfold range. rewrite length_map, length_seq. reflexivity. Qed.

Section Filter.

Variable A : Type.
Variable p : A -> bool.

Lemma filter_shorter (l : list A) : (length (filter p l) <= length l)%nat.
Proof.
  induction l as [|a l IH]; cbn; [lia|]. destruct (p a); cbn; lia.
Qed.

Lemma filter_strictly_shorter (l : list A) :
  (exists x, In x l /\ p x = false) -> (length (filter p l) < length l)%nat.
Proof.
  induction l as [|a l IH]; intros [x [Hin Hx]]; [destruct Hin|].
  cbn. destruct (p a) eqn:E.
  - cbn. apply -> Nat.succ_lt_mono. apply IH. destruct Hin as [<-|Hin].
    + congruence.
    + eauto.
  - pose proof (filter_shorter l). lia.
Qed.

Lemma filter_keeps_all (l : list A) :
  length (filter p l) = length l <-> forall x, In x l -> p x = true.
Proof.
  induction l as [|a l IH]; cbn.
  - split; [intros _ x []|reflexivity].
  - destruct (p a) eqn:E; cbn.
    + split.
      * intros H x [<-|Hin]; [exact E|]. apply IH; [lia|exact Hin].
      * intros H. f_equal. apply IH. auto.
    + split.
      * intros H. pose proof (filter_shorter l). lia.
      * intros H. specialize (H a (or_introl eq_refl)). congruence.
Qed.

End Filter.

(** A rerun generates at most as many tiles as the selection has entries,
    and fewer when an entry is not a tile of the loop. *)
Lemma rerun_count (sel tiles : list Z) :
  NoDup tiles ->
  (length (filter (contains sel) tiles) <= length sel)%nat /\
  ((exists i, In i sel /\ ~ In i tiles) ->
   (length (filter (contains sel) tiles) < length sel)%nat).
Proof.
  intros Hnd.
  set (here := fun i => existsb (Z.eqb i) tiles).
  assert (Hhere : forall i, here i = true <-> In i tiles)
    by (intros i; apply (contains_In tiles i)).
  assert (Hle : (length (filter (contains sel) tiles)
                 <= length (filter here sel))%nat).
  { apply NoDup_incl_length; [apply NoDup_filter, Hnd|].
    intros i Hi. apply filter_In in Hi. destruct Hi as [Hi Hs].
    apply filter_In. split; [apply contains_In, Hs|apply Hhere, Hi]. }
  split.
  - pose proof (filter_shorter Z here sel). lia.
  - intros [i [Hi Hout]].
    assert ((length (filter here sel) < length sel)%nat); [|lia].
    apply filter_strictly_shorter. exists i. split; [exact Hi|].
    destruct (here i) eqn:E; [|reflexivity]. apply Hhere in E. contradiction.
Qed.

Lemma calls_length (g : Grid) (t : option (list Z)) (seed : Z) :
  length (calls g t seed) = length (filter (selected t) (range (tile_count g))).
Proof. rewrite calls_closed_form. apply length_map. Qed.

(** ** The second loop *)

Section CompositingFacts.

Variable Image : Type.

Lemma composite_loop_rerun (g : Grid) (t : option (list Z)) (sel : list Z)
    (tiles : list Z) :
  sparse t = Some sel ->
  forall store : list Image,
    (length (filter (contains sel) tiles) <= length store)%nat ->
    exists ls, composite_loop g t tiles store = Ok ls /\
               length ls = length (filter (contains sel) tiles).
Proof.
  intros Ht. induction tiles as [|tile tiles IH]; intros store Hlen.
  - exists []. split; reflexivity.
  - cbn [composite_loop filter] in *. rewrite Ht.
    destruct (contains sel tile) eqn:E.
    + destruct store as [|im store]; cbn [length] in Hlen; [lia|].
      destruct (IH store ltac:(lia)) as (ls & -> & Hls).
      eexists. split; [reflexivity|]. cbn [length]. congruence.
    + apply IH, Hlen.
Qed.

Lemma composite_loop_tiling (g : Grid) (t : option (list Z)) (tiles : list Z)
    (store : list Image) :
  sparse t = None ->
  (forall tile, In tile tiles -> 0 <= tile < Z.of_nat (length store)) ->
  exists ls, composite_loop g t tiles store = Ok ls /\ length ls = length tiles.
Proof.
  intros Ht. induction tiles as [|tile tiles IH]; intros Hin.
  - exists []. split; reflexivity.
  - cbn [composite_loop]. rewrite Ht.
    destruct (nth_error store (Z.to_nat tile)) as [im|] eqn:E.
    + destruct IH as (ls & -> & Hls); [intros; apply Hin; right; assumption|].
      eexists. split; [reflexivity|]. cbn [length]. congruence.
    + apply nth_error_None in E.
      specialize (Hin tile (or_introl eq_refl)). lia.
Qed.

(** The loop runs to its end whenever the sanity check let it start, with
    one layer per generated tile. *)
Lemma composite_loop_runs (g : Grid) (t : option (list Z)) (store : list Image) :
  Z.of_nat (length store) = tile_count g \/
  (exists sel, sparse t = Some sel /\ length store = length sel) ->
  exists ls, composite_loop g t (range (tile_count g)) store = Ok ls /\
             length ls = length (filter (selected t) (range (tile_count g))).
Proof.
  intros Hcount. unfold selected.
  destruct (sparse t) as [sel|] eqn:Ht.
  - apply (composite_loop_rerun g t sel _ Ht).
    destruct Hcount as [Hn|[sel' [Hs Hl]]].
    + pose proof (filter_shorter Z (contains sel) (range (tile_count g))).
      rewrite range_length in *. lia.
    + injection Hs as <-. rewrite Hl.
      apply rerun_count, range_NoDup.
  - destruct Hcount as [Hn|[sel' [Hs _]]]; [|discriminate].
    destruct (composite_loop_tiling g t (range (tile_count g)) store Ht)
      as (ls & Hls & Hlen).
    + intros tile Hin. apply In_range in Hin. lia.
    + exists ls. split; [exact Hls|]. rewrite Hlen.
      symmetry. apply filter_keeps_all. reflexivity.
Qed.

Lemma have_them_all_spec (g : Grid) (t : option (list Z)) (stored : Z) :
  have_them_all g t stored = Ok true <->
  stored = tile_count g \/
  (exists sel, sparse t = Some sel /\ stored = Z.of_nat (length sel)).
Proof.
  unfold have_them_all. destruct (stored =? tile_count g) eqn:E.
  - split; [left; lia|reflexivity].
  - destruct t as [[|i l]|]; cbn [sparse].
    + split; [discriminate|]. intros [H|[sel [H _]]]; [lia|discriminate].
    + split.
      * intros H. right. exists (i :: l). split; [reflexivity|].
        assert (H' : (stored =? Z.of_nat (length (i :: l))) = true) by congruence.
        apply Z.eqb_eq in H'. exact H'.
      * intros [H|[sel [Hs H]]]; [lia|]. injection Hs as <-. f_equal.
        apply Z.eqb_eq. exact H.
    + split; [discriminate|]. intros [H|[sel [H _]]]; [lia|discriminate].
Qed.

Lemma composite_ok_iff (g : Grid) (t : option (list Z)) (store : list Image) :
  is_ok (composite g t store) = true <->
  Z.of_nat (length store) = tile_count g \/
  (exists sel, sparse t = Some sel /\ length store = length sel).
Proof.
  assert (Hsame :
    (Z.of_nat (length store) = tile_count g \/
     (exists sel, sparse t = Some sel /\
                  Z.of_nat (length store) = Z.of_nat (length sel))) <->
    (Z.of_nat (length store) = tile_count g \/
     (exists sel, sparse t = Some sel /\ length store = length sel))).
  { split; (intros [H|[sel [Hs H]]]; [left; exact H|right; exists sel; split; [exact Hs|lia]]). }
  rewrite <- Hsame, <- have_them_all_spec. unfold composite.
  destruct (have_them_all g t (Z.of_nat (length store))) as [[|]|e] eqn:E;
    cbn [bind is_ok].
  - apply have_them_all_spec, Hsame in E.
    destruct (composite_loop_runs g t store E) as (ls & -> & _).
    cbn [bind is_ok]. split; reflexivity.
  - split; discriminate.
  - split; discriminate.
Qed.

Lemma composite_layers (g : Grid) (t : option (list Z)) (store : list Image)
    (canvas : Canvas Image) :
  composite g t store = Ok canvas ->
  canvas_size canvas = (initsuperwidth g, initsuperheight g) /\
  canvas_seeded canvas = truthy t /\
  length (canvas_layers canvas) =
    length (filter (selected t) (range (tile_count g))).
Proof.
  intros H. assert (Hok : is_ok (composite g t store) = true) by (rewrite H; reflexivity).
  apply composite_ok_iff in Hok.
  destruct (composite_loop_runs g t store Hok) as (ls & Hls & Hlen).
  unfold composite in H.
  destruct (have_them_all g t (Z.of_nat (length store))) as [[|]|e];
    cbn [bind] in H; try discriminate.
  rewrite Hls in H. cbn [bind] in H. injection H as <-. cbn. auto.
Qed.

End CompositingFacts.

(** ** Sanity check before compositing *)

(** C7, as the code has it: compositing goes ahead exactly when the number
    of rendered tiles equals the grid size, or when a rerun selection has
    that many entries; it then returns a canvas of the super-image size with
    one layer per generated tile.  In every other case nothing is composited
    and no image is returned. *)
Theorem composite_sanity_check (Image : Type) (g : Grid) (t : option (list Z))
    (store : list Image) :
  (is_ok (composite g t store) = true <->
   Z.of_nat (length store) = tile_count g \/
   (exists sel, sparse t = Some sel /\ length store = length sel)) /\
  (forall canvas, composite g t store = Ok canvas ->
     canvas_size canvas = (initsuperwidth g, initsuperheight g) /\
     length (canvas_layers canvas) =
       length (filter (selected t) (range (tile_count g)))).
Proof.
  split; [apply composite_ok_iff|].
  intros canvas H. apply composite_layers in H. tauto.
Qed.

Lemma composite_sanity_check_witness :
  is_ok (composite grid_2x1 (Some [0; 1]) [(7, (0, 0, 512, 512)); (8, (384, 0, 896, 512))])
    = true.
Proof.
  apply (proj1 (composite_sanity_check (Z * Box) grid_2x1 (Some [0; 1])
                  [(7, (0, 0, 512, 512)); (8, (384, 0, 896, 512))])).
  left. reflexivity.
Defined.

(** C7 fails as stated: the rerun selection 1, 2, 3 on a grid of two tiles
    names three distinct tiles and two are rendered; the count differs from
    the selection size, yet it equals the grid size, compositing goes ahead
    and the image is returned.  Likewise a compositor handed two rendered
    tiles for a selection of one layers the first and returns. *)
Lemma selection_size_mismatch_composited :
  get_make_image (Some (1 # 4)%Q) (Some [1; 2; 3]) 896 512 512 512
    = Ok (grid_2x1, Some [0; 1; 2]) /\
  NoDup [0; 1; 2] /\
  expected_count grid_2x1 (Some [0; 1; 2]) = 3 /\
  length (emb_tile_store record_call (calls grid_2x1 (Some [0; 1; 2]) 7)) = 2%nat /\
  make_image record_call grid_2x1 (Some [0; 1; 2]) 7 =
    Ok (mkCanvas (896, 512) true
          [mkLayer (7, (0, 0, 512, 512)) None (0, 0);
           mkLayer (8, (384, 0, 896, 512)) (Some alphaLayerLBC) (384, 0)]) /\
  expected_count grid_2x1 (Some [0]) = 1 /\
  composite grid_2x1 (Some [0]) [(7, (0, 0, 512, 512)); (8, (384, 0, 896, 512))] =
    Ok (mkCanvas (896, 512) true
          [mkLayer (7, (0, 0, 512, 512)) (Some alphaLayerRBC) (0, 0)]) /\
  ~ (forall store : list (Z * Box),
       Z.of_nat (length store) <> expected_count grid_2x1 (Some [0; 1; 2]) ->
       is_ok (composite grid_2x1 (Some [0; 1; 2]) store) = false).
Proof.
  split; [reflexivity|]. split.
  { repeat constructor; cbn; intuition discriminate. }
  repeat split; try reflexivity.
  intros H.
  specialize (H [(7, (0, 0, 512, 512)); (8, (384, 0, 896, 512))] ltac:(discriminate)).
  discriminate H.
Qed.

(** ** Selection entries outside the grid *)

(** C6, as the code has it: a rerun selection is never checked against the
    grid.  With an entry outside [0, emb_tiles_x * emb_tiles_y) no tile is
    generated for that entry, and the run returns its image exactly when
    every tile of the grid is selected as well; otherwise it stops at the
    sanity check, after the selected tiles were synthesised. *)
Theorem selection_out_of_range (Image : Type) (generate : Z -> Box -> Image)
    (g : Grid) (t : option (list Z)) (sel : list Z) (seed : Z) :
  sparse t = Some sel -> 0 <= tile_count g ->
  (exists i, In i sel /\ in_range g i = false) ->
  (forall c, In c (calls g t seed) ->
     in_range g (call_tile c) = true /\ In (call_tile c) sel) /\
  (is_ok (make_image generate g t seed) = true <->
   forall i, 0 <= i < tile_count g -> In i sel).
Proof.
  intros Ht Hn (i & Hi & Hout). split.
  - intros c Hc. apply In_calls in Hc. destruct Hc as (Hr & Hsel & _).
    unfold selected in Hsel. rewrite Ht in Hsel. apply contains_In in Hsel.
    split; [unfold in_range; lia|exact Hsel].
  - unfold make_image. rewrite composite_ok_iff.
    unfold emb_tile_store. rewrite length_map, calls_length.
    assert (Hsel : filter (selected t) (range (tile_count g))
                   = filter (contains sel) (range (tile_count g))).
    { apply filter_ext. intros a. unfold selected. rewrite Ht. reflexivity. }
    rewrite Hsel.
    assert (Hfew : (length (filter (contains sel) (range (tile_count g)))
                    < length sel)%nat).
    { apply rerun_count; [apply range_NoDup|]. exists i. split; [exact Hi|].
      rewrite In_range. unfold in_range in Hout. lia. }
    split.
    + intros [Hall|[sel' [Hs Hl]]].
      * intros j Hj. apply contains_In.
        apply (proj1 (filter_keeps_all Z (contains sel) (range (tile_count g)))).
        -- rewrite range_length. lia.
        -- apply In_range, Hj.
      * rewrite Ht in Hs. injection Hs as <-. lia.
    + intros Hall. left.
      assert (Hk : length (filter (contains sel) (range (tile_count g)))
                   = length (range (tile_count g))).
      { apply filter_keeps_all. intros j Hj. apply contains_In, Hall, In_range, Hj. }
      rewrite Hk, range_length. lia.
Qed.

Lemma selection_out_of_range_witness :
  is_ok (make_image record_call grid_2x1 (Some [0; 5]) 7) = true <->
  forall i, 0 <= i < tile_count grid_2x1 -> In i [0; 5].
Proof.
  apply (selection_out_of_range (Z * Box) record_call grid_2x1
           (Some [0; 5]) [0; 5] 7).
  - reflexivity.
  - discriminate.
  - exists 5. split; [right; left; reflexivity|reflexivity].
Defined.

(** C6 fails as stated: the rerun selection 1, 2, 3 on a grid of two tiles
    holds the index 2 after normalisation, outside the grid; the run
    completes and returns the image, and the stray index even counts as a
    neighbour below tile 0, which loses the bottom fade it has under the
    selection 1, 2. *)
Lemma selection_out_of_range_accepted :
  get_make_image (Some (1 # 4)%Q) (Some [1; 2; 3]) 896 512 512 512
    = Ok (grid_2x1, Some [0; 1; 2]) /\
  In 2 [0; 1; 2] /\ in_range grid_2x1 2 = false /\
  make_image record_call grid_2x1 (Some [0; 1; 2]) 7 =
    Ok (mkCanvas (896, 512) true
          [mkLayer (7, (0, 0, 512, 512)) None (0, 0);
           mkLayer (8, (384, 0, 896, 512)) (Some alphaLayerLBC) (384, 0)]) /\
  alpha_of grid_2x1 (Some [0; 1]) 0 = Some alphaLayerB.
Proof.
  repeat split; try reflexivity. right; right; left; reflexivity.
Qed.

(** ** Seeds along the loop *)

Lemma next_seed_cases (s : Z) :
  (s < 4294967294 -> next_seed s = s + 1) /\ (4294967294 <= s -> next_seed s = 0).
Proof.
  unfold next_seed, seedintlimit. change (4294967295 - 1) with 4294967294.
  destruct (s <? 4294967294) eqn:E; split; intros; lia.
Qed.

Lemma seed_at_later (seed a b : Z) :
  0 <= a <= b ->
  seed_at seed b = Nat.iter (Z.to_nat (b - a)) next_seed (seed_at seed a).
Proof.
  intros H. unfold seed_at. rewrite <- Nat.iter_add. f_equal. lia.
Qed.

Lemma upto_sorted (a len : nat) : StronglySorted Z.lt (map Z.of_nat (seq a len)).
Proof.
  revert a. induction len as [|len IH]; intros a; cbn; constructor.
  - apply IH.
  - apply Forall_forall. intros x Hx. apply in_map_iff in Hx.
    destruct Hx as [k [<- Hk]]. apply in_seq in Hk. lia.
Qed.

Lemma filter_sorted (p : Z -> bool) (l : list Z) :
  StronglySorted Z.lt l -> StronglySorted Z.lt (filter p l).
Proof.
  induction 1 as [|a l Hs IH Hall]; cbn; [constructor|].
  destruct (p a); [|exact IH]. constructor; [exact IH|].
  apply Forall_forall. intros x Hx. apply filter_In in Hx.
  rewrite Forall_forall in Hall. apply Hall, Hx.
Qed.

Lemma sorted_neighbours (l : list Z) (i : nat) (a b : Z) :
  StronglySorted Z.lt l ->
  nth_error l i = Some a -> nth_error l (S i) = Some b -> a < b.
Proof.
  intros Hs. revert i. induction Hs as [|x l Hs IH Hall]; intros i Ha Hb.
  - destruct i; discriminate.
  - destruct i as [|i].
    + cbn in Ha, Hb. injection Ha as <-. destruct l as [|y l]; [discriminate|].
      cbn in Hb. injection Hb as <-. inversion Hall. assumption.
    + exact (IH i Ha Hb).
Qed.

Lemma upto_nth (a len i : nat) (x : Z) :
  nth_error (map Z.of_nat (seq a len)) i = Some x -> x = Z.of_nat (a + i).
Proof.
  revert a i. induction len as [|len IH]; intros a i H.
  - destruct i; discriminate.
  - destruct i as [|i]; cbn in H.
    + injection H as <-. f_equal. lia.
    + apply IH in H. subst. f_equal. lia.
Qed.

Lemma nth_call (g : Grid) (t : option (list Z)) (seed : Z) (i : nat) (c : Call) :
  nth_error (calls g t seed) i = Some c ->
  nth_error (filter (selected t) (range (tile_count g))) i = Some (call_tile c) /\
  0 <= call_tile c /\ call_seed c = seed_at seed (call_tile c).
Proof.
  intros H. pose proof (nth_error_In _ _ H) as Hin. apply In_calls in Hin.
  rewrite calls_closed_form, nth_error_map in H.
  destruct (nth_error (filter (selected t) (range (tile_count g))) i) as [tile|];
    [|discriminate].
  cbn in H. injection H as <-. cbn. repeat split; try reflexivity. apply Hin.
Qed.

Lemma filter_everything (l : list Z) : filter (fun _ => true) l = l.
Proof. induction l as [|a l IH]; cbn; congruence. Qed.

(** C9, as the code has it: between two consecutive synthesis calls the
    seed advances once per grid index from the earlier tile to the later
    one, so once in normal tiling, where consecutive calls are consecutive
    tiles; one advance adds one below 2^32 - 2 and gives zero from 2^32 - 2
    on, one short of the 32-bit unsigned maximum. *)
Theorem seed_of_next_call (g : Grid) (t : option (list Z)) (seed : Z)
    (i : nat) (c1 c2 : Call) :
  nth_error (calls g t seed) i = Some c1 ->
  nth_error (calls g t seed) (S i) = Some c2 ->
  (call_tile c1 < call_tile c2 /\
   call_seed c2 =
     Nat.iter (Z.to_nat (call_tile c2 - call_tile c1)) next_seed (call_seed c1)) /\
  (sparse t = None ->
   call_tile c2 = call_tile c1 + 1 /\ call_seed c2 = next_seed (call_seed c1)) /\
  (forall s, (s < 4294967294 -> next_seed s = s + 1) /\
             (4294967294 <= s -> next_seed s = 0)).
Proof.
  intros H1 H2.
  destruct (nth_call _ _ _ _ _ H1) as (Hn1 & Hpos1 & Hs1).
  destruct (nth_call _ _ _ _ _ H2) as (Hn2 & Hpos2 & Hs2).
  assert (Hlt : call_tile c1 < call_tile c2).
  { apply (sorted_neighbours _ i _ _
             (filter_sorted (selected t) _ (upto_sorted 0 _)) Hn1 Hn2). }
  assert (Hiter : call_seed c2 =
     Nat.iter (Z.to_nat (call_tile c2 - call_tile c1)) next_seed (call_seed c1)).
  { rewrite Hs1, Hs2. apply seed_at_later. lia. }
  split; [split; assumption|]. split; [|apply next_seed_cases].
  intros Ht.
  assert (Hall : filter (selected t) (range (tile_count g)) = range (tile_count g)).
  { unfold selected. rewrite Ht. apply filter_everything. }
  rewrite Hall in Hn1, Hn2. apply upto_nth in Hn1. apply upto_nth in Hn2.
  assert (Hstep : call_tile c2 = call_tile c1 + 1) by lia.
  split; [exact Hstep|]. rewrite Hiter, Hstep.
  replace (call_tile c1 + 1 - call_tile c1) with 1 by lia. reflexivity.
Qed.

Lemma seed_of_next_call_witness :
  call_seed (mkCall 1 8 (384, 0, 896, 512)) =
    next_seed (call_seed (mkCall 0 7 (0, 0, 512, 512))).
Proof.
  apply (proj1 (proj2 (seed_of_next_call grid_2x1 None 7 0
                         (mkCall 0 7 (0, 0, 512, 512))
                         (mkCall 1 8 (384, 0, 896, 512))
                         eq_refl eq_refl)) eq_refl).
Defined.

(** C9 fails as stated: started at 2^32 - 2, the second tile of a normal
    tiling gets the seed 0, where a successor wrapping at the 32-bit
    unsigned maximum gives 2^32 - 1. *)
Lemma seed_wraps_one_early :
  map call_seed (calls grid_2x1 None 4294967294) = [4294967294; 0] /\
  uint32_successor 4294967294 = 4294967295 /\
  ~ (forall i c1 c2,
       nth_error (calls grid_2x1 None 4294967294) i = Some c1 ->
       nth_error (calls grid_2x1 None 4294967294) (S i) = Some c2 ->
       call_seed c2 = uint32_successor (call_seed c1)).
Proof.
  split; [reflexivity|]. split; [reflexivity|].
  intros H. specialize (H 0%nat _ _ eq_refl eq_refl). discriminate H.
Qed.

(** C10: in a rerun the seed moves on for every grid index, skipped or
    not, so a selected tile [i] of the grid is synthesised with the initial
    seed advanced [i] times, whatever else the selection holds: two runs
    from the same initial seed give tile [i] the same seed. *)
Theorem rerun_seed_by_index (g : Grid) (t : option (list Z)) (sel : list Z)
    (seed i : Z) :
  sparse t = Some sel -> In i sel -> 0 <= i < tile_count g ->
  In (mkCall i (Nat.iter (Z.to_nat i) next_seed seed) (crop g i)) (calls g t seed) /\
  (forall c, In c (calls g t seed) -> call_tile c = i ->
     call_seed c = Nat.iter (Z.to_nat i) next_seed seed) /\
  (forall t' sel' c c',
     sparse t' = Some sel' -> In i sel' ->
     In c (calls g t seed) -> In c' (calls g t' seed) ->
     call_tile c = i -> call_tile c' = i -> call_seed c = call_seed c').
Proof.
  intros Ht Hi Hr. fold (seed_at seed i).
  assert (Hseed : forall u c, In c (calls g u seed) -> call_tile c = i ->
                              call_seed c = seed_at seed i).
  { intros u c Hc <-. apply In_calls in Hc. apply Hc. }
  split; [|split].
  - apply In_calls. cbn. repeat split; try lia.
    unfold selected. rewrite Ht. apply contains_In, Hi.
  - apply Hseed.
  - intros t' sel' c c' _ _ Hc Hc' Hci Hci'.
    rewrite (Hseed t c Hc Hci), (Hseed t' c' Hc' Hci'). reflexivity.
Qed.

Lemma rerun_seed_by_index_witness :
  In (mkCall 4 (Nat.iter 4 next_seed 7) (crop grid_3x3 4))
     (calls grid_3x3 (Some [0; 1; 3; 4]) 7).
Proof.
  apply (rerun_seed_by_index grid_3x3 (Some [0; 1; 3; 4]) [0; 1; 3; 4] 7 4).
  - reflexivity.
  - right; right; right; left; reflexivity.
  - split; [discriminate|reflexivity].
Defined.

(** * Further properties *)

(** ** Checks on the [embiggen] argument *)



(** X2: a list that already has a non-negative scale, a strength within
    [0, 1] and a non-negative overlap passes the checks unchanged, so
    checking twice is checking once. *)
Theorem sanitise_keeps_well_formed (l : list Q) :
  well_formed l -> sanitise (Some l) = Ok l.
Proof.
  destruct l as [|e0 [|e1 [|e2 r]]]; cbn [well_formed]; try contradiction.
  intros (H0 & [H1 H1'] & H2). unfold sanitise, bind.
  destruct (Qlt_le_dec e0 0); [lra|].
  destruct (Qlt_le_dec 1 e1); [lra|].
  destruct (Qlt_le_dec e1 0) as [Hneg|_]; [lra|].
  destruct (Qlt_le_dec e2 0); [lra|]. reflexivity.
Qed.

Lemma sanitise_keeps_well_formed_witness :
  sanitise (Some [2%Q; (3 # 4)%Q; (1 # 4)%Q]) = Ok [2%Q; (3 # 4)%Q; (1 # 4)%Q].
Proof.
  apply (sanitise_keeps_well_formed [2%Q; (3 # 4)%Q; (1 # 4)%Q]).
  cbn. repeat split; discriminate.
Defined.

(** ** Overlap in pixels *)

Lemma round_near_floor (q : Q) : round q = Qfloor q \/ round q = Qfloor q + 1.
Proof.
  unfold round. destruct (q - inject_Z (Qfloor q) ?= 1 # 2)%Q; auto.
  destruct (Z.even (Qfloor q)); auto.
Qed.

Lemma round_lower (q : Q) (z : Z) : (inject_Z z <= q)%Q -> z <= round q.
Proof.
  intros H. apply Qfloor_resp_le in H. rewrite Qfloor_Z in H.
  destruct (round_near_floor q) as [-> | ->]; lia.
Qed.

Lemma round_upper (q : Q) (z : Z) : (q <= inject_Z z)%Q -> round q <= z.
Proof.
  intros H. pose proof (Qfloor_resp_le _ _ H) as Hf. rewrite Qfloor_Z in Hf.
  destruct (Z.eq_dec (Qfloor q) z) as [E|E].
  - unfold round.
    destruct (Qcompare_spec (q - inject_Z (Qfloor q)) (1 # 2)) as [He|Hl|Hg];
      [rewrite E in He; lra | lia | rewrite E in Hg; lra].
  - destruct (round_near_floor q) as [-> | ->]; lia.
Qed.

(** *** Float rounding *)

Lemma pow2_pos (e : Z) : (0 < 2 ^ e)%Q.
Proof. apply Qpower_0_lt. reflexivity. Qed.

Lemma pow2_add (a b : Z) : (2 ^ (a + b) == 2 ^ a * 2 ^ b)%Q.
Proof. apply Qpower_plus. discriminate. Qed.

Lemma pow2_int (n : Z) : 0 <= n -> (inject_Z (2 ^ n) == 2 ^ n)%Q.
Proof. intros Hn. apply (Zpower_Qpower 2 n Hn). Qed.

Lemma pow2_scale (z e : Z) :
  e <= 0 -> (inject_Z (z * 2 ^ (- e)) * 2 ^ e == inject_Z z)%Q.
Proof.
  intros He. rewrite inject_Z_mult, pow2_int by lia.
  rewrite <- Qmult_assoc, <- pow2_add.
  replace (- e + e) with 0 by lia. change (2 ^ 0)%Q with 1%Q. apply Qmult_1_r.
Qed.

Lemma floor_log2_spec (q : Q) :
  (0 < q)%Q -> (2 ^ floor_log2 q <= q < 2 ^ (floor_log2 q + 1))%Q.
Proof.
  intros Hq. destruct q as [n d].
  assert (Hn : 0 < n) by (unfold Qlt in Hq; cbn in Hq; lia).
  destruct (Z.log2_spec n Hn) as [Hn1 Hn2].
  destruct (Z.log2_spec (Zpos d) (Pos2Z.is_pos d)) as [Hd1 Hd2].
  pose proof (Z.log2_nonneg n) as Hln. pose proof (Z.log2_nonneg (Zpos d)) as Hld.
  unfold floor_log2. cbn [Qnum Qden].
  set (ln := Z.log2 n) in *. set (ld := Z.log2 (Zpos d)) in *.
  assert (HD : (0 < inject_Z (Zpos d))%Q) by reflexivity.
  assert (HN1 : (2 ^ ln <= inject_Z n)%Q)
    by (rewrite <- pow2_int by lia; rewrite <- Zle_Qle; exact Hn1).
  assert (HN2 : (inject_Z n < 2 ^ (ln + 1))%Q)
    by (rewrite <- pow2_int by lia; rewrite <- Zlt_Qlt; exact Hn2).
  assert (HD1 : (2 ^ ld <= inject_Z (Zpos d))%Q)
    by (rewrite <- pow2_int by lia; rewrite <- Zle_Qle; exact Hd1).
  assert (HD2 : (inject_Z (Zpos d) < 2 ^ (ld + 1))%Q)
    by (rewrite <- pow2_int by lia; rewrite <- Zlt_Qlt; exact Hd2).
  rewrite (Qmake_Qdiv n d).
  assert (Hlow : (2 ^ (ln - ld - 1) <= inject_Z n / inject_Z (Zpos d))%Q).
  { apply Qle_shift_div_l; [exact HD|].
    apply Qle_trans with (2 ^ (ln - ld - 1) * 2 ^ (ld + 1))%Q.
    - apply Qmult_le_l; [apply pow2_pos|apply Qlt_le_weak, HD2].
    - rewrite <- pow2_add. replace (ln - ld - 1 + (ld + 1)) with ln by lia.
      exact HN1. }
  assert (Hhigh : (inject_Z n / inject_Z (Zpos d) < 2 ^ (ln - ld + 1))%Q).
  { apply Qlt_shift_div_r; [exact HD|].
    apply Qlt_le_trans with (2 ^ (ln - ld + 1) * 2 ^ ld)%Q.
    - rewrite <- pow2_add. replace (ln - ld + 1 + ld) with (ln + 1) by lia.
      exact HN2.
    - apply Qmult_le_l; [apply pow2_pos|exact HD1]. }
  destruct (Qle_bool (2 ^ (ln - ld)) (inject_Z n / inject_Z (Zpos d))) eqn:E.
  - apply Qle_bool_iff in E. split; assumption.
  - replace (ln - ld - 1 + 1) with (ln - ld) by lia. split; [exact Hlow|].
    apply Qnot_le_lt. intros Hle. apply Qle_bool_iff in Hle. congruence.
Qed.

Lemma nearest_exponent (q : Q) (z : Z) :
  (0 < q)%Q -> (q <= inject_Z z)%Q -> z < 2 ^ 53 ->
  Z.max (-1074) (floor_log2 q - 52) <= 0.
Proof.
  intros Hq Hz Hbig.
  destruct (floor_log2_spec q Hq) as [Hlow _].
  assert (Hlt : (2 ^ floor_log2 q < 2 ^ 53)%Q).
  { apply Qle_lt_trans with q; [exact Hlow|].
    apply Qle_lt_trans with (inject_Z z); [exact Hz|].
    rewrite <- (pow2_int 53) by lia. rewrite <- Zlt_Qlt. exact Hbig. }
  apply Qpower_lt_compat_l_inv in Hlt; [lia|reflexivity].
Qed.

Lemma nearest_nonneg (q : Q) : (0 < q)%Q -> (0 <= nearest q)%Q.
Proof.
  intros Hq. unfold nearest.
  apply Qmult_le_0_compat; [|apply Qlt_le_weak, pow2_pos].
  change 0%Q with (inject_Z 0). rewrite <- Zle_Qle. apply round_lower.
  change (inject_Z 0) with 0%Q.
  apply Qle_shift_div_l; [apply pow2_pos|]. rewrite Qmult_0_l.
  apply Qlt_le_weak, Hq.
Qed.

Lemma nearest_le_int (q : Q) (z : Z) :
  (0 < q)%Q -> (q <= inject_Z z)%Q -> z < 2 ^ 53 -> (nearest q <= inject_Z z)%Q.
Proof.
  intros Hq Hz Hbig. pose proof (nearest_exponent q z Hq Hz Hbig) as He.
  unfold nearest. set (e := Z.max (-1074) (floor_log2 q - 52)) in *.
  rewrite <- (pow2_scale z e He).
  apply Qmult_le_r; [apply pow2_pos|].
  rewrite <- Zle_Qle. apply round_upper.
  apply Qle_shift_div_r; [apply pow2_pos|].
  rewrite (pow2_scale z e He). exact Hz.
Qed.

Lemma nearest_ge_int (q : Q) (z : Z) :
  (0 < q)%Q -> (inject_Z z <= q)%Q -> z < 2 ^ 53 -> (inject_Z z <= nearest q)%Q.
Proof.
  intros Hq Hz Hbig. unfold nearest.
  set (e := Z.max (-1074) (floor_log2 q - 52)).
  destruct (Z_le_gt_dec e 0) as [He|He].
  - rewrite <- (pow2_scale z e He).
    apply Qmult_le_r; [apply pow2_pos|].
    rewrite <- Zle_Qle. apply round_lower.
    apply Qle_shift_div_l; [apply pow2_pos|].
    rewrite (pow2_scale z e He). exact Hz.
  - assert (Ee : e = floor_log2 q - 52) by lia.
    destruct (floor_log2_spec q Hq) as [Hlow _].
    assert (Hm : 2 ^ 52 <= round (q / 2 ^ e)).
    { apply round_lower. apply Qle_shift_div_l; [apply pow2_pos|].
      rewrite (pow2_int 52) by lia. rewrite <- pow2_add.
      replace (52 + e) with (floor_log2 q) by lia. exact Hlow. }
    apply Qle_trans with (inject_Z (2 ^ 52) * 2 ^ 1)%Q.
    + change (inject_Z (2 ^ 52) * 2 ^ 1)%Q with (inject_Z (2 ^ 53)).
      rewrite <- Zle_Qle. lia.
    + apply Qle_trans with (inject_Z (round (q / 2 ^ e)) * 2 ^ 1)%Q.
      * apply Qmult_le_r; [reflexivity|]. rewrite <- Zle_Qle. exact Hm.
      * apply Qmult_le_l.
        -- apply Qlt_le_trans with (inject_Z (2 ^ 52)); [reflexivity|].
           rewrite <- Zle_Qle. exact Hm.
        -- apply Qpower_le_compat_l; [lia|discriminate].
Qed.


Lemma fl_nonpos (q : Q) : (q <= 0)%Q -> (fl q <= 0)%Q.
Proof.
  intros Hq. unfold fl. destruct (Qcompare_spec q 0) as [E|E|E].
  - apply Qle_refl.
  - assert (0 <= nearest (- q))%Q by (apply nearest_nonneg; lra). lra.
  - lra.
Qed.

(** Rounding to a float does not cross an integer below 2^53. *)
Lemma fl_le_int (q : Q) (z : Z) :
  0 <= z < 2 ^ 53 -> (q <= inject_Z z)%Q -> (fl q <= inject_Z z)%Q.
Proof.
  intros Hz Hq.
  assert (HZ : (0 <= inject_Z z)%Q)
    by (change 0%Q with (inject_Z 0); rewrite <- Zle_Qle; lia).
  unfold fl. destruct (Qcompare_spec q 0) as [E|E|E].
  - exact HZ.
  - assert (0 <= nearest (- q))%Q by (apply nearest_nonneg; lra). lra.
  - apply nearest_le_int; [exact E|exact Hq|lia].
Qed.

Lemma fl_ge_int (q : Q) (z : Z) :
  0 <= z < 2 ^ 53 -> (inject_Z z <= q)%Q -> (inject_Z z <= fl q)%Q.
Proof.
  intros Hz Hq.
  assert (HZ : (0 <= inject_Z z)%Q)
    by (change 0%Q with (inject_Z 0); rewrite <- Zle_Qle; lia).
  unfold fl. destruct (Qcompare_spec q 0) as [E|E|E].
  - lra.
  - lra.
  - apply nearest_ge_int; [exact E|exact Hq|lia].
Qed.

(** [float(n)] is exact below 2^53. *)
Lemma fl_int (z : Z) : 0 <= z < 2 ^ 53 -> (fl (inject_Z z) == inject_Z z)%Q.
Proof.
  intros Hz. apply Qle_antisym.
  - apply fl_le_int; [exact Hz|apply Qle_refl].
  - apply fl_ge_int; [exact Hz|apply Qle_refl].
Qed.



(** ** Planning with an overlap smaller than the tile *)

Lemma emb_tiles_at_least (superdim dim overlap : Z) :
  0 <= overlap < dim ->
  exists n, emb_tiles superdim dim overlap = Ok n /\ 1 <= n /\
            (1 < n <-> dim < superdim).
Proof.
  intros Ho. rewrite emb_tiles_value by lia.
  destruct (superdim >? dim) eqn:E; eexists; (split; [reflexivity|]).
  - pose proof (ceilDiv_pos (superdim - dim) (dim - overlap) ltac:(lia) ltac:(lia)).
    lia.
  - lia.
Qed.

Lemma plan_valid (sw sh w h ox oy : Z) :
  0 <= ox < w -> 0 <= oy < h ->
  exists tx ty,
    emb_tiles sw w ox = Ok tx /\ emb_tiles sh h oy = Ok ty /\
    1 <= tx /\ 1 <= ty /\ (1 < tx <-> w < sw) /\ (1 < ty <-> h < sh) /\
    plan sw sh w h ox oy =
      if (tx >? 1) || (ty >? 1) then Ok (mkGrid sw sh w h ox oy tx ty)
      else Raise AssertionError.
Proof.
  intros Hox Hoy.
  destruct (emb_tiles_at_least sw w ox Hox) as (tx & Hx & Htx & Hwide).
  destruct (emb_tiles_at_least sh h oy Hoy) as (ty & Hy & Hty & Hhigh).
  exists tx, ty. unfold plan. rewrite Hx, Hy. cbn [bind]. auto 10.
Qed.

(** X4: with overlaps smaller than the tile, planning succeeds exactly when
    the super-image is wider or higher than one tile, and then yields a grid
    of the given sizes with at least one column, one row and two tiles; an
    image that fits in one tile is refused by the sanity assertion. *)
Theorem plan_succeeds_iff_larger (sw sh w h ox oy : Z) :
  0 <= ox < w -> 0 <= oy < h ->
  (w < sw \/ h < sh ->
   exists g, plan sw sh w h ox oy = Ok g /\
     (initsuperwidth g, initsuperheight g, width g, height g) = (sw, sh, w, h) /\
     (overlap_size_x g, overlap_size_y g) = (ox, oy) /\
     1 <= emb_tiles_x g /\ 1 <= emb_tiles_y g /\ 2 <= tile_count g) /\
  (sw <= w /\ sh <= h -> plan sw sh w h ox oy = Raise AssertionError).
Proof.
  intros Hox Hoy.
  destruct (plan_valid sw sh w h ox oy Hox Hoy)
    as (tx & ty & _ & _ & Htx & Hty & Hwide & Hhigh & ->).
  split.
  - intros Hlarger.
    assert (E : (tx >? 1) || (ty >? 1) = true)
      by (apply orb_true_iff; destruct Hlarger; [left|right]; lia).
    rewrite E. eexists. split; [reflexivity|]. unfold tile_count. cbn.
    repeat split; try assumption. destruct Hlarger; nia.
  - intros [Hw Hh].
    assert (E : (tx >? 1) || (ty >? 1) = false) by (apply orb_false_iff; lia).
    rewrite E. reflexivity.
Qed.

Lemma plan_succeeds_iff_larger_witness :
  exists g, plan 1024 512 512 512 128 128 = Ok g /\ 2 <= tile_count g.
Proof.
  destruct (proj1 (plan_succeeds_iff_larger 1024 512 512 512 128 128
                     ltac:(lia) ltac:(lia)) ltac:(lia))
    as (g & Hg & _ & _ & _ & _ & Hn).
  exists g. split; assumption.
Defined.

(** X5: with the default overlap, or an overlap knob that as a float lies
    between one quarter and one half, on tiles of at least four and fewer
    than 2^53 pixels a side and a super-image at least one tile large and
    larger along one axis, [get_make_image] builds its closure: the overlaps
    are at least one pixel and smaller than the tile, the grid has at least
    two tiles and the selection is normalised. *)
Theorem modest_ratio_is_planned (e : option Q) (tiles : option (list Z))
    (sw sh w h : Z) :
  (forall r, e = Some r -> (1 # 4 <= fl r <= 1 # 2)%Q) ->
  4 <= w <= sw -> 4 <= h <= sh -> w < 2 ^ 53 -> h < 2 ^ 53 -> w < sw \/ h < sh ->
  exists g,
    get_make_image e tiles sw sh w h = Ok (g, normalise tiles) /\
    1 <= overlap_size_x g < w /\ 1 <= overlap_size_y g < h /\
    1 <= emb_tiles_x g /\ 1 <= emb_tiles_y g /\ 2 <= tile_count g.
Proof.
  intros He Hw Hh Hwbig Hhbig Hlarger. unfold get_make_image.
  set (k := fl (embiggen_2 e)).
  assert (Hk : (1 # 4 <= k <= 1 # 2)%Q).
  { unfold k, embiggen_2. destruct e as [r|].
    - specialize (He r eq_refl). destruct (Qlt_le_dec r 0) as [Hneg|_]; [|exact He].
      assert (fl r <= 0)%Q by (apply fl_nonpos; lra). lra.
    - vm_compute. split; discriminate. }
  assert (Hside : forall d, 4 <= d -> d < 2 ^ 53 ->
            1 <= round (fl (k * fl (inject_Z d))) < d).
  { intros d Hd Hdbig.
    pose proof (fl_int d ltac:(lia)) as HD.
    assert (Hd4 : (4 <= inject_Z d)%Q)
      by (change 4%Q with (inject_Z 4); rewrite <- Zle_Qle; exact Hd).
    assert (Hlow : (1 <= k * fl (inject_Z d))%Q).
    { rewrite HD. apply Qle_trans with ((1 # 4) * inject_Z d)%Q; [lra|].
      apply Qmult_le_compat_r; lra. }
    assert (Hhigh : (k * fl (inject_Z d) <= inject_Z (d - 1))%Q).
    { rewrite HD. unfold Z.sub. rewrite inject_Z_plus, inject_Z_opp.
      change (inject_Z 1) with 1%Q.
      apply Qle_trans with ((1 # 2) * inject_Z d)%Q; [|lra].
      apply Qmult_le_compat_r; lra. }
    split.
    - apply round_lower, (fl_ge_int _ 1); [lia|exact Hlow].
    - assert (round (fl (k * fl (inject_Z d))) <= d - 1); [|lia].
      apply round_upper, fl_le_int; [lia|exact Hhigh]. }
  unfold overlap_size. fold k.
  destruct (Qlt_le_dec k 1) as [_|Hbig]; [|lra].
  destruct (Qlt_le_dec k 0) as [Hneg|_]; [lra|].
  pose proof (Hside w ltac:(lia) Hwbig) as Hox.
  pose proof (Hside h ltac:(lia) Hhbig) as Hoy.
  set (ox := round (fl (k * fl (inject_Z w)))) in *.
  set (oy := round (fl (k * fl (inject_Z h)))) in *.
  destruct (plan_valid sw sh w h ox oy ltac:(lia) ltac:(lia))
    as (tx & ty & _ & _ & Htx & Hty & Hwide & Hhigh & Hplan).
  assert (E : (tx >? 1) || (ty >? 1) = true)
    by (apply orb_true_iff; destruct Hlarger; [left|right]; lia).
  unfold prepare. rewrite Hplan, E. cbn [bind].
  rewrite alpha_layers_built by lia. cbn [bind]. eexists. split; [reflexivity|].
  unfold tile_count. cbn. repeat split; try lia; destruct Hlarger; nia.
Qed.

Lemma modest_ratio_is_planned_witness :
  exists g, get_make_image None (Some [1; 2]) 1024 512 512 512
              = Ok (g, normalise (Some [1; 2])) /\ 2 <= tile_count g.
Proof.
  destruct (modest_ratio_is_planned None (Some [1; 2]) 1024 512 512 512)
    as (g & Hg & _ & _ & _ & _ & Hn);
    [discriminate | lia | lia | lia | lia | lia |].
  exists g. split; assumption.
Defined.

(** X6: with an overlap smaller than the tile, the crops of neighbouring
    columns start further right each time and share at least
    [overlap_size_x] columns of pixels, exactly that many except before
    the last column; likewise down the rows with [overlap_size_y]. *)
Theorem neighbours_overlap (sw sh w h ox oy tx ty : Z) :
  w <= sw -> h <= sh -> 0 <= ox < w -> 0 <= oy < h ->
  emb_tiles sw w ox = Ok tx -> emb_tiles sh h oy = Ok ty ->
  let g := mkGrid sw sh w h ox oy tx ty in
  (forall col, 0 <= col -> col + 1 < tx ->
     left_of g col < left_of g (col + 1) <= left_of g col + (w - ox) /\
     (col + 2 < tx -> left_of g (col + 1) = left_of g col + (w - ox))) /\
  (forall row, 0 <= row -> row + 1 < ty ->
     top_of g row < top_of g (row + 1) <= top_of g row + (h - oy) /\
     (row + 2 < ty -> top_of g (row + 1) = top_of g row + (h - oy))).
Proof.
  intros Hw Hh Hox Hoy Ex Ey g.
  destruct (emb_tiles_strides _ _ _ _ Hw Hox Ex) as (_ & Hrx & _ & Hsx).
  destruct (emb_tiles_strides _ _ _ _ Hh Hoy Ey) as (_ & Hry & _ & Hsy).
  unfold left_of, top_of, round_int, g. cbn.
  split.
  - intros col Hc Hlast. specialize (Hsx ltac:(lia)).
    destruct (col + 1 =? tx) eqn:E1; [lia|].
    destruct (col + 1 + 1 =? tx) eqn:E2.
    + assert (tx = col + 2) by lia. subst tx.
      replace (col + 2 - 2) with col in Hsx by lia.
      replace (col + 2 - 1) with (col + 1) in Hrx by lia.
      split; [nia|lia].
    + split; [nia|intros _; nia].
  - intros row Hr Hlast. specialize (Hsy ltac:(lia)).
    destruct (row + 1 =? ty) eqn:E1; [lia|].
    destruct (row + 1 + 1 =? ty) eqn:E2.
    + assert (ty = row + 2) by lia. subst ty.
      replace (row + 2 - 2) with row in Hsy by lia.
      replace (row + 2 - 1) with (row + 1) in Hry by lia.
      split; [nia|lia].
    + split; [nia|intros _; nia].
Qed.

Lemma neighbours_overlap_witness :
  left_of grid_3x1 1 < left_of grid_3x1 2 <= left_of grid_3x1 1 + (512 - 128).
Proof.
  apply (proj1 (neighbours_overlap 1024 512 512 512 128 128 3 1
                  ltac:(lia) ltac:(lia) ltac:(lia) ltac:(lia) eq_refl eq_refl) 1);
    lia.
Defined.

(** ** Seeds of a run *)

Lemma next_seed_mod (s : Z) :
  0 <= s <= 4294967294 -> next_seed s = (s + 1) mod 4294967295.
Proof.
  intros Hs. destruct (next_seed_cases s) as [Hlow Hwrap].
  destruct (Z_lt_le_dec s 4294967294) as [Hlt|Hge].
  - rewrite (Hlow Hlt). symmetry. apply Z.mod_small. lia.
  - rewrite (Hwrap Hge). replace s with 4294967294 by lia. reflexivity.
Qed.

Lemma iter_next_seed_mod (seed : Z) (k : nat) :
  0 <= seed <= 4294967294 ->
  Nat.iter k next_seed seed = (seed + Z.of_nat k) mod 4294967295.
Proof.
  intros Hs. induction k as [|k IH].
  - change (seed = (seed + 0) mod 4294967295).
    rewrite Z.add_0_r. symmetry. apply Z.mod_small. lia.
  - change (Nat.iter (S k) next_seed seed) with (next_seed (Nat.iter k next_seed seed)).
    rewrite IH.
    pose proof (Z.mod_pos_bound (seed + Z.of_nat k) 4294967295 ltac:(lia)).
    rewrite next_seed_mod by lia.
    rewrite Z.add_mod_idemp_l by lia. f_equal. lia.
Qed.

(** X7: started from a seed within [0, 2^32 - 2], every tile is synthesised
    with the seed [(seed + tile) mod (2^32 - 1)], which stays within that
    range. *)
Theorem seed_closed_form (g : Grid) (t : option (list Z)) (seed : Z) (c : Call) :
  0 <= seed <= 4294967294 -> In c (calls g t seed) ->
  call_seed c = (seed + call_tile c) mod 4294967295 /\
  0 <= call_seed c <= 4294967294.
Proof.
  intros Hs Hc. apply In_calls in Hc. destruct Hc as (Hr & _ & Hseed & _).
  assert (E : call_seed c = (seed + call_tile c) mod 4294967295).
  { rewrite Hseed. unfold seed_at. rewrite iter_next_seed_mod by exact Hs.
    f_equal. lia. }
  split; [exact E|]. rewrite E.
  pose proof (Z.mod_pos_bound (seed + call_tile c) 4294967295 ltac:(lia)). lia.
Qed.

Lemma seed_closed_form_witness :
  call_seed (mkCall 1 0 (384, 0, 896, 512)) = (4294967294 + 1) mod 4294967295.
Proof.
  apply (seed_closed_form grid_2x1 None 4294967294 (mkCall 1 0 (384, 0, 896, 512))).
  - split; discriminate.
  - right; left; reflexivity.
Defined.

(** X8: started from a seed within [0, 2^32 - 2], a grid of at most
    2^32 - 1 tiles never gives two tiles the same seed: two synthesis calls
    with equal seeds are the same call. *)
Theorem seeds_distinct (g : Grid) (t : option (list Z)) (seed : Z) (c1 c2 : Call) :
  0 <= seed <= 4294967294 -> tile_count g <= 4294967295 ->
  In c1 (calls g t seed) -> In c2 (calls g t seed) ->
  call_seed c1 = call_seed c2 -> c1 = c2.
Proof.
  intros Hs Hn H1 H2 Heq.
  apply In_calls in H1. destruct H1 as (Hr1 & _ & Hs1 & Hb1).
  apply In_calls in H2. destruct H2 as (Hr2 & _ & Hs2 & Hb2).
  assert (Htile : call_tile c1 = call_tile c2).
  { rewrite Hs1, Hs2 in Heq. unfold seed_at in Heq.
    rewrite !iter_next_seed_mod in Heq by exact Hs.
    rewrite !Z2Nat.id in Heq by lia.
    pose proof (Z.div_mod (seed + call_tile c1) 4294967295 ltac:(lia)).
    pose proof (Z.div_mod (seed + call_tile c2) 4294967295 ltac:(lia)).
    lia. }
  destruct c1 as [t1 s1 b1], c2 as [t2 s2 b2]. cbn in *. congruence.
Qed.

Lemma seeds_distinct_witness :
  mkCall 1 8 (384, 0, 896, 512) = mkCall 1 8 (384, 0, 896, 512).
Proof.
  apply (seeds_distinct grid_2x1 None 7).
  - split; discriminate.
  - discriminate.
  - right; left; reflexivity.
  - right; left; reflexivity.
  - reflexivity.
Defined.

(** ** What [make_image] returns *)

Lemma range_nth (n tile : Z) :
  0 <= tile < n -> nth_error (range n) (Z.to_nat tile) = Some tile.
Proof.
  intros H. unfold range. rewrite nth_error_map, nth_error_seq.
  destruct (Nat.ltb_spec (Z.to_nat tile) (Z.to_nat n)); [|lia].
  cbn. f_equal. lia.
Qed.

Section Layers.

Variable Image : Type.
Variable g : Grid.
Variable t : option (list Z).
Variable f : Z -> Image.

Lemma composite_loop_rerun_layers (sel tiles : list Z) :
  sparse t = Some sel ->
  composite_loop g t tiles (map f (filter (contains sel) tiles)) =
  Ok (map (tile_layer f g t) (filter (contains sel) tiles)).
Proof.
  intros Ht. induction tiles as [|tile tiles IH]; [reflexivity|].
  cbn [composite_loop filter]. rewrite Ht.
  destruct (contains sel tile); [|exact IH].
  cbn [map]. rewrite IH. reflexivity.
Qed.

Lemma composite_loop_tiling_layers (tiles : list Z) (store : list Image) :
  sparse t = None ->
  (forall tile, In tile tiles -> nth_error store (Z.to_nat tile) = Some (f tile)) ->
  composite_loop g t tiles store = Ok (map (tile_layer f g t) tiles).
Proof.
  intros Ht. induction tiles as [|tile tiles IH]; intros Hnth; [reflexivity|].
  cbn [composite_loop]. rewrite Ht, (Hnth tile (or_introl eq_refl)).
  rewrite IH by (intros; apply Hnth; right; assumption). reflexivity.
Qed.

Lemma composite_loop_generated :
  composite_loop g t (range (tile_count g))
    (map f (filter (selected t) (range (tile_count g)))) =
  Ok (map (tile_layer f g t) (filter (selected t) (range (tile_count g)))).
Proof.
  destruct (sparse t) as [sel|] eqn:Ht.
  - assert (Hsel : filter (selected t) (range (tile_count g))
                   = filter (contains sel) (range (tile_count g))).
    { apply filter_ext. intros a. unfold selected. rewrite Ht. reflexivity. }
    rewrite Hsel. apply composite_loop_rerun_layers, Ht.
  - assert (Hall : filter (selected t) (range (tile_count g)) = range (tile_count g)).
    { unfold selected. rewrite Ht. apply filter_everything. }
    rewrite Hall. apply composite_loop_tiling_layers; [exact Ht|].
    intros tile Hin. apply In_range in Hin.
    rewrite nth_error_map, range_nth by exact Hin. reflexivity.
Qed.

End Layers.

Lemma make_image_result (Image : Type) (generate : Z -> Box -> Image)
    (g : Grid) (t : option (list Z)) (seed : Z) (canvas : Canvas Image) :
  make_image generate g t seed = Ok canvas ->
  canvas = mkCanvas (initsuperwidth g, initsuperheight g) (truthy t)
             (map (layer_of_call generate g t) (calls g t seed)).
Proof.
  unfold make_image, composite. intros H.
  destruct (have_them_all g t _) as [[|]|e]; cbn [bind] in H; try discriminate.
  unfold emb_tile_store in H. rewrite calls_closed_form in *.
  rewrite map_map in H. cbn [call_seed call_box] in H.
  rewrite (composite_loop_generated Image g t
             (fun tile => generate (seed_at seed tile) (crop g tile))) in H.
  cbn [bind] in H. injection H as <-. f_equal.
  rewrite map_map. reflexivity.
Qed.

(** X9: an image returned by [make_image] consists of one layer per
    synthesis call, in the order of the calls: the image generated from that
    call's seed and crop, under the alpha layer and at the place of its
    tile; in a rerun the store is popped in step with the skipped tiles. *)
Theorem make_image_layers (Image : Type) (generate : Z -> Box -> Image)
    (g : Grid) (t : option (list Z)) (seed : Z) (canvas : Canvas Image) :
  make_image generate g t seed = Ok canvas ->
  canvas_layers canvas = map (layer_of_call generate g t) (calls g t seed) /\
  canvas_size canvas = (initsuperwidth g, initsuperheight g) /\
  canvas_seeded canvas = truthy t /\
  map layer_image (canvas_layers canvas) = emb_tile_store generate (calls g t seed).
Proof.
  intros H. apply make_image_result in H. subst canvas. cbn.
  repeat split. rewrite map_map. reflexivity.
Qed.

Lemma make_image_layers_witness :
  canvas_seeded (mkCanvas (896, 512) true
    [mkLayer (record_call 7 (0, 0, 512, 512)) (Some alphaLayerRBC) (0, 0)]) = true.
Proof.
  apply (make_image_layers (Z * Box) record_call grid_2x1 (Some [0]) 7).
  reflexivity.
Defined.

Lemma place_at_crop (sw sh w h ox oy tx ty : Z) (t : option (list Z)) (tile : Z) :
  w <= sw -> h <= sh -> 0 <= ox < w -> 0 <= oy < h ->
  emb_tiles sw w ox = Ok tx -> emb_tiles sh h oy = Ok ty ->
  fst (place (mkGrid sw sh w h ox oy tx ty) t tile) =
  origin (crop (mkGrid sw sh w h ox oy tx ty) tile).
Proof.
  intros Hw Hh Hox Hoy Ex Ey.
  destruct (emb_tiles_strides _ _ _ _ Hw Hox Ex) as (_ & _ & Hx1 & _).
  destruct (emb_tiles_strides _ _ _ _ Hh Hoy Ey) as (_ & _ & Hy1 & _).
  unfold place, crop, origin.
  set (g := mkGrid sw sh w h ox oy tx ty).
  destruct ((emb_row_i g tile =? 0) && (emb_column_i g tile =? 0) && negb (truthy t))
    eqn:E; [|reflexivity].
  apply andb_true_iff in E. destruct E as [E _].
  apply andb_true_iff in E. destruct E as [Er Ec].
  apply Z.eqb_eq in Er, Ec. rewrite Er, Ec.
  unfold left_of, top_of, round_int, g.
  cbn [emb_tiles_x emb_tiles_y initsuperwidth initsuperheight width height
       overlap_size_x overlap_size_y].
  destruct (0 + 1 =? tx) eqn:E1; destruct (0 + 1 =? ty) eqn:E2;
    cbn [fst]; f_equal; lia.
Qed.

(** X10: on a grid planned for a super-image at least one tile large with
    overlaps smaller than the tile, every layer of the returned image lies
    where the crop its image was generated from was cut, the top-left tile
    of a normal tiling included. *)
Theorem layers_at_their_crops (Image : Type) (generate : Z -> Box -> Image)
    (sw sh w h ox oy tx ty : Z) (t : option (list Z)) (seed : Z)
    (canvas : Canvas Image) :
  w <= sw -> h <= sh -> 0 <= ox < w -> 0 <= oy < h ->
  emb_tiles sw w ox = Ok tx -> emb_tiles sh h oy = Ok ty ->
  make_image generate (mkGrid sw sh w h ox oy tx ty) t seed = Ok canvas ->
  forall layer, In layer (canvas_layers canvas) ->
    exists c, In c (calls (mkGrid sw sh w h ox oy tx ty) t seed) /\
      layer_image layer = generate (call_seed c) (call_box c) /\
      layer_at layer = origin (call_box c).
Proof.
  intros Hw Hh Hox Hoy Ex Ey H layer Hin.
  apply make_image_result in H. subst canvas. cbn in Hin.
  apply in_map_iff in Hin. destruct Hin as [c [<- Hc]].
  exists c. split; [exact Hc|]. split; [reflexivity|].
  cbn. pose proof Hc as Hc'. apply In_calls in Hc'.
  destruct Hc' as (_ & _ & _ & ->).
  apply place_at_crop; assumption.
Qed.

Lemma layers_at_their_crops_witness :
  exists c, In c (calls grid_2x1 None 7) /\
    layer_image (mkLayer (record_call 8 (384, 0, 896, 512)) (Some alphaLayerL) (384, 0))
      = record_call (call_seed c) (call_box c) /\
    layer_at (mkLayer (record_call 8 (384, 0, 896, 512)) (Some alphaLayerL) (384, 0))
      = origin (call_box c).
Proof.
  apply (layers_at_their_crops (Z * Box) record_call 896 512 512 512 128 128 2 1
           None 7
           (mkCanvas (896, 512) false
              [mkLayer (record_call 7 (0, 0, 512, 512)) None (0, 0);
               mkLayer (record_call 8 (384, 0, 896, 512)) (Some alphaLayerL) (384, 0)]));
    try lia; try reflexivity.
  right; left; reflexivity.
Defined.

(** ** When a run returns its image *)

(** X11: normal tiling of a grid with a non-negative tile count always
    passes the sanity check: it synthesises every tile of the grid and
    returns an unseeded image with one layer per tile; with a negative tile
    count nothing is synthesised and no image is returned. *)
Theorem normal_tiling_returns (Image : Type) (generate : Z -> Box -> Image)
    (g : Grid) (t : option (list Z)) (seed : Z) :
  sparse t = None ->
  (0 <= tile_count g ->
   map call_tile (calls g t seed) = range (tile_count g) /\
   exists canvas, make_image generate g t seed = Ok canvas /\
     canvas_seeded canvas = false /\
     Z.of_nat (length (canvas_layers canvas)) = tile_count g) /\
  (tile_count g < 0 ->
   calls g t seed = [] /\ is_ok (make_image generate g t seed) = false).
Proof.
  intros Ht.
  assert (Hall : filter (selected t) (range (tile_count g)) = range (tile_count g)).
  { unfold selected. rewrite Ht. apply filter_everything. }
  assert (Hlen : length (emb_tile_store generate (calls g t seed))
                 = Z.to_nat (tile_count g)).
  { unfold emb_tile_store. rewrite length_map, calls_length, Hall. apply range_length. }
  split.
  - intros Hn. split.
    + rewrite calls_closed_form, Hall, map_map. cbn. apply map_id.
    + assert (Hok : is_ok (make_image generate g t seed) = true).
      { unfold make_image. apply composite_ok_iff. left. rewrite Hlen. lia. }
      destruct (make_image generate g t seed) as [canvas|e] eqn:E; [|discriminate].
      exists canvas. split; [reflexivity|].
      apply make_image_result in E. subst canvas. cbn.
      unfold truthy. rewrite Ht. split; [reflexivity|].
      rewrite length_map, calls_length, Hall, range_length. lia.
  - intros Hn. split.
    + rewrite calls_closed_form. unfold range.
      replace (Z.to_nat (tile_count g)) with 0%nat by lia. reflexivity.
    + destruct (is_ok (make_image generate g t seed)) eqn:E; [|reflexivity].
      unfold make_image in E. apply composite_ok_iff in E.
      destruct E as [E|[sel [Hs _]]]; [lia|congruence].
Qed.

Lemma normal_tiling_returns_witness :
  exists canvas, make_image record_call grid_3x1 None 7 = Ok canvas /\
    canvas_seeded canvas = false /\
    Z.of_nat (length (canvas_layers canvas)) = tile_count grid_3x1.
Proof.
  apply (proj1 (normal_tiling_returns (Z * Box) record_call grid_3x1 None 7 eq_refl)).
  discriminate.
Defined.

Lemma rerun_generates_selection (sel : list Z) (n : Z) :
  length (filter (contains sel) (range n)) = length sel <->
  NoDup sel /\ forall i, In i sel -> 0 <= i < n.
Proof.
  set (l := filter (contains sel) (range n)).
  assert (Hnd : NoDup l) by apply NoDup_filter, range_NoDup.
  assert (Hincl : incl l sel).
  { intros i Hi. apply filter_In in Hi. apply contains_In, Hi. }
  split.
  - intros Hlen. split.
    + apply NoDup_incl_NoDup with (l := l); [exact Hnd|lia|exact Hincl].
    + intros i Hi.
      assert (Hback : incl sel l)
        by (apply NoDup_length_incl; [exact Hnd | lia | exact Hincl]).
      apply Hback, filter_In in Hi. apply In_range, Hi.
  - intros [Hs Hr]. apply Nat.le_antisymm.
    + apply NoDup_incl_length; assumption.
    + apply NoDup_incl_length; [exact Hs|].
      intros i Hi. apply filter_In. split; [apply In_range, Hr, Hi|].
      apply contains_In, Hi.
Qed.

(** X12: a rerun on a grid with a non-negative tile count returns its image
    exactly when the selection holds every tile of the grid, or holds only
    tiles of the grid and none twice; then it is the seeded image. *)
Theorem rerun_returns_iff (Image : Type) (generate : Z -> Box -> Image)
    (g : Grid) (t : option (list Z)) (sel : list Z) (seed : Z) :
  sparse t = Some sel -> 0 <= tile_count g ->
  (is_ok (make_image generate g t seed) = true <->
   (forall i, 0 <= i < tile_count g -> In i sel) \/
   (NoDup sel /\ forall i, In i sel -> 0 <= i < tile_count g)) /\
  (forall canvas, make_image generate g t seed = Ok canvas ->
     canvas_seeded canvas = true).
Proof.
  intros Ht Hn. split.
  - unfold make_image. rewrite composite_ok_iff.
    unfold emb_tile_store. rewrite length_map, calls_length.
    assert (Hsel : filter (selected t) (range (tile_count g))
                   = filter (contains sel) (range (tile_count g))).
    { apply filter_ext. intros a. unfold selected. rewrite Ht. reflexivity. }
    rewrite Hsel.
    assert (Hfull :
      Z.of_nat (length (filter (contains sel) (range (tile_count g)))) = tile_count g
      <-> forall i, 0 <= i < tile_count g -> In i sel).
    { assert (Hk :
        Z.of_nat (length (filter (contains sel) (range (tile_count g)))) = tile_count g
        <-> length (filter (contains sel) (range (tile_count g)))
            = length (range (tile_count g)))
        by (rewrite range_length; lia).
      rewrite Hk, filter_keeps_all.
      split; intros H i Hi.
      - apply contains_In, H, In_range, Hi.
      - apply contains_In, H, In_range, Hi. }
    rewrite Hfull, <- rerun_generates_selection.
    split; (intros [H|H]; [left; exact H|right]).
    + destruct H as [sel' [Hs Hl]]. rewrite Ht in Hs. injection Hs as <-. exact Hl.
    + exists sel. split; [exact Ht|exact H].
  - intros canvas H. apply make_image_result in H. subst canvas. cbn.
    unfold truthy. rewrite Ht. reflexivity.
Qed.

Lemma rerun_returns_iff_witness :
  is_ok (make_image record_call grid_3x3 (Some [0; 1; 3; 4]) 7) = true <->
  (forall i, 0 <= i < tile_count grid_3x3 -> In i [0; 1; 3; 4]) \/
  (NoDup [0; 1; 3; 4] /\ forall i, In i [0; 1; 3; 4] -> 0 <= i < tile_count grid_3x3).
Proof.
  apply (proj1 (rerun_returns_iff (Z * Box) record_call grid_3x3
                  (Some [0; 1; 3; 4]) [0; 1; 3; 4] 7 eq_refl ltac:(discriminate))).
Defined.

(** ** The selection as the run sees it *)

Lemma insort_perm (x : Z) (l : list Z) : Permutation (x :: l) (insort x l).
Proof.
  induction l as [|y l IH]; cbn; [reflexivity|].
  destruct (x <=? y); [reflexivity|].
  rewrite perm_swap. apply perm_skip, IH.
Qed.

Lemma sort_perm (l : list Z) : Permutation l (sort l).
Proof.
  induction l as [|x l IH]; cbn; [reflexivity|].
  rewrite <- insort_perm. apply perm_skip, IH.
Qed.

Lemma insort_sorted (x : Z) (l : list Z) :
  Sorted Z.le l -> Sorted Z.le (insort x l).
Proof.
  induction 1 as [|y l Hs IH Hhd]; cbn; [repeat constructor|].
  destruct (x <=? y) eqn:E.
  - constructor; [constructor; assumption|]. constructor. lia.
  - constructor; [exact IH|].
    destruct l as [|z l]; cbn in *; [constructor; lia|].
    inversion Hhd; subst. destruct (x <=? z); constructor; lia.
Qed.

Lemma sort_sorted (l : list Z) : Sorted Z.le (sort l).
Proof.
  induction l as [|x l IH]; cbn; [constructor|]. apply insort_sorted, IH.
Qed.

(** X13: the tile numbers of a rerun are shifted from one-based to
    zero-based and put in ascending order, keeping every entry, duplicates
    included; [None] and the empty list, which mean normal tiling, are left
    as they are. *)
Theorem normalise_sorts (l : list Z) :
  normalise None = None /\ normalise (Some []) = Some [] /\
  (l <> [] ->
   exists l', normalise (Some l) = Some l' /\
     StronglySorted Z.le l' /\
     Permutation (map (fun n => n - 1) l) l' /\
     length l' = length l /\
     (forall i, In i l' <-> In (i + 1) l) /\
     sparse (Some l') = Some l').
Proof.
  split; [reflexivity|]. split; [reflexivity|]. intros Hne.
  destruct l as [|n l]; [congruence|].
  exists (sort (map (fun n => n - 1) (n :: l))).
  pose proof (sort_perm (map (fun n => n - 1) (n :: l))) as Hp.
  split; [reflexivity|]. split.
  - apply Sorted_StronglySorted; [intros a b c; apply Z.le_trans|apply sort_sorted].
  - split; [exact Hp|]. split.
    + rewrite <- (Permutation_length Hp). apply length_map.
    + split.
      * intros i. split.
        -- intros Hi. apply (Permutation_in _ (Permutation_sym Hp)) in Hi.
           apply in_map_iff in Hi. destruct Hi as [k [<- Hk]].
           replace (k - 1 + 1) with k by lia. exact Hk.
        -- intros Hi. apply (Permutation_in _ Hp). apply in_map_iff.
           exists (i + 1). split; [lia|exact Hi].
      * destruct (sort (map (fun n => n - 1) (n :: l))) as [|a r] eqn:E;
          [|reflexivity].
        apply Permutation_length in Hp. discriminate Hp.
Qed.

Lemma normalise_sorts_witness :
  exists l', normalise (Some [5; 2; 4; 1]) = Some l' /\ StronglySorted Z.le l'.
Proof.
  destruct (proj2 (proj2 (normalise_sorts [5; 2; 4; 1])) ltac:(discriminate))
    as (l' & Hl & Hs & _).
  exists l'. split; assumption.
Defined.

Section SameSelection.

Variable Image : Type.
Variable generate : Z -> Box -> Image.
Variable g : Grid.
Variables sel sel' : list Z.
Hypothesis same_entries : forall x, contains sel x = contains sel' x.
Hypothesis same_length : length sel = length sel'.
Hypothesis some_entry : sel <> [].

Lemma sparse_selection : sparse (Some sel) = Some sel /\ sparse (Some sel') = Some sel'.
Proof.
  destruct sel as [|a l]; [congruence|].
  destruct sel' as [|a' l']; [discriminate same_length|]. split; reflexivity.
Qed.

Lemma same_place (tile : Z) : place g (Some sel) tile = place g (Some sel') tile.
Proof.
  destruct sparse_selection as [Hs Hs'].
  unfold place, truthy. rewrite Hs, Hs'. unfold rerun_alpha.
  rewrite !same_entries. reflexivity.
Qed.

Lemma same_calls (tiles : list Z) (seed : Z) :
  tile_loop g (Some sel) tiles seed = tile_loop g (Some sel') tiles seed.
Proof.
  destruct sparse_selection as [Hs Hs'].
  revert seed. induction tiles as [|tile tiles IH]; intros seed; [reflexivity|].
  cbn [tile_loop]. rewrite Hs, Hs', same_entries, !IH. reflexivity.
Qed.

Lemma same_layers (tiles : list Z) (store : list Image) :
  composite_loop g (Some sel) tiles store = composite_loop g (Some sel') tiles store.
Proof.
  destruct sparse_selection as [Hs Hs'].
  revert store. induction tiles as [|tile tiles IH]; intros store; [reflexivity|].
  cbn [composite_loop]. rewrite Hs, Hs', same_entries.
  destruct (contains sel' tile); [|apply IH].
  destruct store as [|im store]; [reflexivity|].
  rewrite IH. unfold alpha_of. rewrite same_place. reflexivity.
Qed.

Lemma same_check (stored : Z) :
  have_them_all g (Some sel) stored = have_them_all g (Some sel') stored.
Proof.
  unfold have_them_all. rewrite same_length.
  destruct sel as [|a l]; [congruence|].
  destruct sel' as [|a' l']; [discriminate same_length|]. reflexivity.
Qed.

Lemma same_image (seed : Z) :
  make_image generate g (Some sel) seed = make_image generate g (Some sel') seed.
Proof.
  destruct sparse_selection as [Hs Hs'].
  unfold make_image, calls. rewrite same_calls.
  unfold composite, truthy. rewrite same_check, Hs, Hs'.
  destruct (have_them_all g (Some sel') _) as [[|]|e]; cbn [bind]; try reflexivity.
  rewrite same_layers. reflexivity.
Qed.

End SameSelection.

Lemma permuted_entries (sel sel' : list Z) (x : Z) :
  Permutation sel sel' -> contains sel x = contains sel' x.
Proof.
  intros Hp. destruct (contains sel x) eqn:E; symmetry.
  - apply contains_In. apply (Permutation_in _ Hp). apply contains_In, E.
  - destruct (contains sel' x) eqn:E'; [|reflexivity].
    apply contains_In in E'. apply (Permutation_in _ (Permutation_sym Hp)) in E'.
    apply contains_In in E'. congruence.
Qed.

(** X14: a rerun depends on its selection only through which tiles it
    holds and how many entries it has: listing the same tile numbers in
    another order gives the same calls and the same result, so the result
    on the sorted selection is the one on the selection as given. *)
Theorem rerun_order_irrelevant (Image : Type) (generate : Z -> Box -> Image)
    (g : Grid) (sel sel' : list Z) (seed : Z) :
  Permutation sel sel' ->
  calls g (Some sel) seed = calls g (Some sel') seed /\
  make_image generate g (Some sel) seed = make_image generate g (Some sel') seed /\
  make_image generate g (Some (sort sel)) seed = make_image generate g (Some sel) seed.
Proof.
  assert (Hgen : forall a b, Permutation a b ->
            calls g (Some a) seed = calls g (Some b) seed /\
            make_image generate g (Some a) seed = make_image generate g (Some b) seed).
  { intros a b Hp. destruct a as [|x a].
    - apply Permutation_nil in Hp. subst b. split; reflexivity.
    - split.
      + apply same_calls;
          [intros y; apply permuted_entries, Hp
          |apply Permutation_length, Hp|discriminate].
      + apply same_image;
          [intros y; apply permuted_entries, Hp
          |apply Permutation_length, Hp|discriminate]. }
  intros Hp. destruct (Hgen sel sel' Hp) as [Hc Hi].
  split; [exact Hc|]. split; [exact Hi|].
  apply Hgen, Permutation_sym, sort_perm.
Qed.

Lemma rerun_order_irrelevant_witness :
  make_image record_call grid_3x3 (Some [4; 0; 3; 1]) 7 =
  make_image record_call grid_3x3 (Some [0; 1; 3; 4]) 7.
Proof.
  apply (rerun_order_irrelevant (Z * Box) record_call grid_3x3 [4; 0; 3; 1] [0; 1; 3; 4] 7).
  apply (Permutation_trans (l' := [0; 4; 3; 1])); [apply perm_swap|].
  apply perm_skip.
  apply (Permutation_trans (l' := [3; 4; 1])); [apply perm_swap|].
  apply (Permutation_trans (l' := [3; 1; 4])); [apply perm_skip, perm_swap|].
  apply perm_swap.
Defined.

(** ** Which sides a tile fades *)

Lemma cell_nonneg (g : Grid) (tile : Z) :
  0 < emb_tiles_x g -> 0 <= tile ->
  0 <= emb_row_i g tile /\ 0 <= emb_column_i g tile < emb_tiles_x g.
Proof.
  intros Htx Ht. unfold emb_row_i, emb_column_i. split.
  - apply Z.div_pos; lia.
  - apply Z.mod_pos_bound, Htx.
Qed.

(** X15: in normal tiling a tile fades towards the left exactly when it has
    a column to its left, towards the top exactly when it has a row above
    it, and never towards the right or the bottom. *)
Theorem normal_tiling_sides (g : Grid) (t : option (list Z)) (tile : Z) :
  sparse t = None -> 0 < emb_tiles_x g -> 0 <= tile ->
  applied (fades_left g) (alpha_of g t tile) = negb (emb_column_i g tile =? 0) /\
  applied (fades_top g) (alpha_of g t tile) = negb (emb_row_i g tile =? 0) /\
  applied (fades_right g) (alpha_of g t tile) = false /\
  applied (fades_bottom g) (alpha_of g t tile) = false.
Proof.
  intros Ht Htx Htile.
  destruct (cell_nonneg g tile Htx Htile) as [Hrow Hcol].
  unfold alpha_of, place, truthy, tiling_alpha. rewrite Ht.
  destruct (emb_row_i g tile =? 0) eqn:Er;
    destruct (emb_column_i g tile =? 0) eqn:Ec; cbn [andb negb snd].
  - repeat split; reflexivity.
  - destruct (emb_column_i g tile >=? 1) eqn:E1; [|lia]. repeat split; reflexivity.
  - destruct (emb_row_i g tile >=? 1) eqn:E1; [|lia].
    destruct (emb_column_i g tile + 1 =? emb_tiles_x g); repeat split; reflexivity.
  - destruct (emb_row_i g tile >=? 1) eqn:E1; cbn [andb];
      destruct (emb_column_i g tile + 1 =? emb_tiles_x g); repeat split; reflexivity.
Qed.

Lemma normal_tiling_sides_witness :
  applied (fades_left grid_3x1) (alpha_of grid_3x1 None 2) = true.
Proof.
  apply (proj1 (normal_tiling_sides grid_3x1 None 2 eq_refl eq_refl ltac:(discriminate))).
Defined.

(** X16: in a rerun on a grid of at least two columns and two rows a tile
    fades towards the left exactly when it is not in the first column,
    towards the top exactly when it is not in the first row, towards the
    right exactly when it is not in the last column and the next index is
    not selected, and towards the bottom exactly when it is not in the last
    row and the index one row down is not selected. *)
Theorem rerun_sides (g : Grid) (t : option (list Z)) (sel : list Z) (tile : Z) :
  sparse t = Some sel -> 2 <= emb_tiles_x g -> 2 <= emb_tiles_y g -> 0 <= tile ->
  applied (fades_left g) (alpha_of g t tile) = negb (emb_column_i g tile =? 0) /\
  applied (fades_top g) (alpha_of g t tile) = negb (emb_row_i g tile =? 0) /\
  applied (fades_right g) (alpha_of g t tile) =
    negb (emb_column_i g tile =? emb_tiles_x g - 1) && negb (contains sel (tile + 1)) /\
  applied (fades_bottom g) (alpha_of g t tile) =
    negb (emb_row_i g tile =? emb_tiles_y g - 1)
    && negb (contains sel (tile + emb_tiles_x g)).
Proof.
  intros Ht Htx Hty Htile.
  unfold alpha_of, place, truthy, rerun_alpha. rewrite Ht.
  rewrite andb_false_r. cbn [snd].
  destruct (emb_row_i g tile =? 0) eqn:Er;
    destruct (emb_row_i g tile =? emb_tiles_y g - 1) eqn:Er';
    destruct (emb_column_i g tile =? 0) eqn:Ec;
    destruct (emb_column_i g tile =? emb_tiles_x g - 1) eqn:Ec';
    try lia;
    destruct (contains sel (tile + 1));
    destruct (contains sel (tile + emb_tiles_x g));
    repeat split; reflexivity.
Qed.

Lemma rerun_sides_witness :
  applied (fades_right grid_3x3) (alpha_of grid_3x3 (Some [0; 1; 3; 4]) 4) = true.
Proof.
  apply (proj1 (proj2 (proj2 (rerun_sides grid_3x3 (Some [0; 1; 3; 4]) [0; 1; 3; 4] 4
                                eq_refl ltac:(discriminate) ltac:(discriminate)
                                ltac:(discriminate))))).
Defined.

Lemma filter_keeps_all_eq (p : Z -> bool) (l : list Z) :
  (forall x, In x l -> p x = true) -> filter p l = l.
Proof.
  induction l as [|a l IH]; intros H; [reflexivity|].
  cbn. rewrite (H a (or_introl eq_refl)). f_equal.
  apply IH. intros x Hx. apply H. right. exact Hx.
Qed.

Lemma full_rerun_place (g : Grid) (sel : list Z) (tile : Z) :
  2 <= emb_tiles_x g -> 2 <= emb_tiles_y g ->
  (forall i, In i sel <-> 0 <= i < tile_count g) ->
  0 <= tile < tile_count g ->
  place g (Some sel) tile = place g None tile.
Proof.
  intros Htx Hty Hsel Htile.
  assert (Hs : sparse (Some sel) = Some sel).
  { destruct sel as [|a l]; [|reflexivity].
    exfalso. apply (proj2 (Hsel tile) Htile). }
  unfold tile_count in *.
  destruct (cell_bounds (emb_tiles_x g) (emb_tiles_y g) tile ltac:(lia) Htile)
    as [Hcol Hrow].
  pose proof (Z.div_mod tile (emb_tiles_x g) ltac:(lia)) as Hdm.
  fold (emb_row_i g tile) in Hrow, Hdm. fold (emb_column_i g tile) in Hcol, Hdm.
  assert (Hright : contains sel (tile + 1) =
            negb ((emb_row_i g tile =? emb_tiles_y g - 1)
                  && (emb_column_i g tile =? emb_tiles_x g - 1))).
  { destruct (contains sel (tile + 1)) eqn:E.
    - apply contains_In, Hsel in E.
      destruct (emb_row_i g tile =? emb_tiles_y g - 1) eqn:E1;
        destruct (emb_column_i g tile =? emb_tiles_x g - 1) eqn:E2;
        try reflexivity. nia.
    - destruct (emb_row_i g tile =? emb_tiles_y g - 1) eqn:E1;
        destruct (emb_column_i g tile =? emb_tiles_x g - 1) eqn:E2;
        try reflexivity; exfalso;
        (assert (Hin : In (tile + 1) sel) by (apply Hsel; nia));
        apply contains_In in Hin; congruence. }
  assert (Hdown : contains sel (tile + emb_tiles_x g) =
            negb (emb_row_i g tile =? emb_tiles_y g - 1)).
  { destruct (contains sel (tile + emb_tiles_x g)) eqn:E.
    - apply contains_In, Hsel in E.
      destruct (emb_row_i g tile =? emb_tiles_y g - 1) eqn:E1; [nia|reflexivity].
    - destruct (emb_row_i g tile =? emb_tiles_y g - 1) eqn:E1; [reflexivity|].
      exfalso. assert (Hin : In (tile + emb_tiles_x g) sel) by (apply Hsel; nia).
      apply contains_In in Hin. congruence. }
  unfold place, truthy, rerun_alpha, tiling_alpha, left_of, top_of, round_int.
  rewrite Hs, Hright, Hdown. cbn [sparse negb andb].
  rewrite andb_false_r, andb_true_r.
  destruct (emb_row_i g tile =? 0) eqn:Er;
    destruct (emb_row_i g tile =? emb_tiles_y g - 1) eqn:Er';
    destruct (emb_column_i g tile =? 0) eqn:Ec;
    destruct (emb_column_i g tile =? emb_tiles_x g - 1) eqn:Ec';
    try lia; cbn [negb andb];
    destruct (emb_row_i g tile >=? 1) eqn:Er1; try lia;
    destruct (emb_column_i g tile >=? 1) eqn:Ec1; try lia;
    destruct (emb_row_i g tile + 1 =? emb_tiles_y g) eqn:Er2; try lia;
    destruct (emb_column_i g tile + 1 =? emb_tiles_x g) eqn:Ec2; try lia;
    cbn [negb andb]; repeat f_equal; lia.
Qed.

(** X17: on a grid of at least two columns and two rows, a rerun whose
    selection is exactly the tiles of the grid places every tile where
    normal tiling places it and under the same alpha layer, makes the same
    synthesis calls and composites the same layers; only the canvas they
    are laid on differs, seeded with the init image in the rerun. *)
Theorem full_rerun_as_tiling (Image : Type) (generate : Z -> Box -> Image)
    (g : Grid) (sel : list Z) (seed : Z) :
  2 <= emb_tiles_x g -> 2 <= emb_tiles_y g ->
  (forall i, In i sel <-> 0 <= i < tile_count g) ->
  (forall tile, 0 <= tile < tile_count g ->
     place g (Some sel) tile = place g None tile) /\
  calls g (Some sel) seed = calls g None seed /\
  (forall c1 c2,
     make_image generate g (Some sel) seed = Ok c1 ->
     make_image generate g None seed = Ok c2 ->
     canvas_layers c1 = canvas_layers c2 /\
     canvas_seeded c1 = true /\ canvas_seeded c2 = false).
Proof.
  intros Htx Hty Hsel.
  assert (Hs : sparse (Some sel) = Some sel).
  { destruct sel as [|a l]; [|reflexivity].
    exfalso. apply (proj2 (Hsel 0)). unfold tile_count. nia. }
  assert (Hcalls : calls g (Some sel) seed = calls g None seed).
  { rewrite !calls_closed_form. f_equal.
    transitivity (range (tile_count g)); [|symmetry; apply filter_everything].
    apply filter_keeps_all_eq. intros i Hi. unfold selected. rewrite Hs.
    apply contains_In, Hsel, In_range, Hi. }
  split; [intros tile Htile; apply full_rerun_place; assumption|].
  split; [exact Hcalls|].
  intros c1 c2 H1 H2.
  apply make_image_result in H1, H2. subst c1 c2. cbn.
  unfold truthy. rewrite Hs. cbn. split; [|split; reflexivity].
  rewrite Hcalls. apply map_ext_in. intros c Hc. apply In_calls in Hc.
  unfold layer_of_call, alpha_of.
  rewrite full_rerun_place by (try assumption; apply Hc). reflexivity.
Qed.

Lemma full_rerun_as_tiling_witness :
  calls (mkGrid 896 896 512 512 128 128 2 2) (Some [0; 1; 2; 3]) 7 =
  calls (mkGrid 896 896 512 512 128 128 2 2) None 7.
Proof.
  apply (full_rerun_as_tiling (Z * Box) record_call
           (mkGrid 896 896 512 512 128 128 2 2) [0; 1; 2; 3] 7).
  - discriminate.
  - discriminate.
  - intros i. change (tile_count (mkGrid 896 896 512 512 128 128 2 2)) with 4.
    cbn [In]. lia.
Defined.

(** ** How planning can fail *)

(** X18: the sizing of [get_make_image] raises nothing but a division by
    zero or the sanity assertion; it divides by zero exactly when, along an
    axis where the super-image is larger than one tile, the overlap equals
    the tile dimension. *)
Theorem plan_failures (sw sh w h ox oy : Z) :
  (plan sw sh w h ox oy = Raise ZeroDivisionError <->
   (w < sw /\ ox = w) \/ (h < sh /\ oy = h)) /\
  (forall e, plan sw sh w h ox oy = Raise e ->
     e = ZeroDivisionError \/ e = AssertionError).
Proof.
  unfold plan.
  destruct (Z_lt_le_dec w sw) as [Hw|Hw];
    [destruct (Z.eq_dec ox w) as [Hox|Hox]|].
  1: { rewrite emb_tiles_zero_divisor by assumption. cbn [bind].
       split; [tauto|]. intros e He. left. congruence. }
  all: destruct (emb_tiles_defined sw w ox ltac:(lia)) as (tx & -> & _).
  all: unfold bind at 1 3.
  all: destruct (Z_lt_le_dec h sh) as [Hh|Hh];
    [destruct (Z.eq_dec oy h) as [Hoy|Hoy]|].
  all: try (rewrite emb_tiles_zero_divisor by assumption; cbn [bind];
            split; [tauto|]; intros e He; left; congruence).
  all: destruct (emb_tiles_defined sh h oy ltac:(lia)) as (ty & -> & _).
  all: cbn [bind]; destruct ((tx >? 1) || (ty >? 1)).
  all: split; [split; [discriminate|lia]|].
  all: intros e He; try discriminate; right; congruence.
Qed.

Lemma plan_failures_witness :
  plan 1024 512 512 512 512 0 = Raise ZeroDivisionError.
Proof.
  apply (proj2 (proj1 (plan_failures 1024 512 512 512 512 0))).
  left. split; [lia|reflexivity].
Defined.

(** ** Which tiles are synthesised *)

(** X19: the synthesis calls of a run are for the tiles of the grid that
    are selected (all of them in normal tiling), in ascending order and
    each once, however often a rerun selection lists a tile; a rerun makes
    at most as many calls as the selection has entries. *)
Theorem calls_once_ascending (g : Grid) (t : option (list Z)) (seed : Z) :
  map call_tile (calls g t seed) = filter (selected t) (range (tile_count g)) /\
  StronglySorted Z.lt (map call_tile (calls g t seed)) /\
  NoDup (calls g t seed) /\
  (forall sel, sparse t = Some sel ->
     (length (calls g t seed) <= length sel)%nat).
Proof.
  assert (Htiles : map call_tile (calls g t seed)
                   = filter (selected t) (range (tile_count g))).
  { rewrite calls_closed_form, map_map. cbn. apply map_id. }
  split; [exact Htiles|]. split; [|split].
  - rewrite Htiles. apply filter_sorted, upto_sorted.
  - apply (NoDup_map_inv call_tile). rewrite Htiles.
    apply NoDup_filter, range_NoDup.
  - intros sel Ht. rewrite calls_length.
    assert (Hsel : filter (selected t) (range (tile_count g))
                   = filter (contains sel) (range (tile_count g))).
    { apply filter_ext. intros a. unfold selected. rewrite Ht. reflexivity. }
    rewrite Hsel. apply rerun_count, range_NoDup.
Qed.

Lemma calls_once_ascending_witness :
  (length (calls grid_2x1 (Some [0; 0; 1]%Z) 7%Z) <= 3)%nat.
Proof.
  apply (proj2 (proj2 (proj2 (calls_once_ascending grid_2x1 (Some [0; 0; 1]) 7)))
           [0; 0; 1]).
  reflexivity.
Defined.

(** ** Where the asymmetric corner is used *)

(** X20: the asymmetric corner is pasted in normal tiling on every tile
    below the first row that is not in the last column, and in a rerun (on
    a grid of at least two columns and rows) on a tile below the first row
    and outside the last column whose next index is selected and which is
    in the last row or has the index one row down selected. *)
Theorem asymmetric_corner_use (g : Grid) (t : option (list Z)) (tile : Z) :
  0 <= tile ->
  (sparse t = None -> 0 < emb_tiles_x g ->
   applied (asymmetric_corner g) (alpha_of g t tile) =
     negb (emb_row_i g tile =? 0)
     && negb (emb_column_i g tile =? emb_tiles_x g - 1)) /\
  (forall sel, sparse t = Some sel -> 2 <= emb_tiles_x g -> 2 <= emb_tiles_y g ->
   applied (asymmetric_corner g) (alpha_of g t tile) =
     negb (emb_row_i g tile =? 0)
     && negb (emb_column_i g tile =? emb_tiles_x g - 1)
     && contains sel (tile + 1)
     && ((emb_row_i g tile =? emb_tiles_y g - 1)
         || contains sel (tile + emb_tiles_x g))).
Proof.
  intros Htile. split.
  - intros Ht Htx.
    destruct (cell_nonneg g tile Htx Htile) as [Hrow Hcol].
    unfold alpha_of, place, truthy, tiling_alpha. rewrite Ht.
    destruct (emb_row_i g tile =? 0) eqn:Er;
      destruct (emb_column_i g tile =? 0) eqn:Ec; cbn [andb negb snd].
    + reflexivity.
    + destruct (emb_column_i g tile >=? 1) eqn:E1; [reflexivity|lia].
    + destruct (emb_row_i g tile >=? 1) eqn:E1; [|lia].
      destruct (emb_column_i g tile + 1 =? emb_tiles_x g) eqn:E2;
        destruct (emb_column_i g tile =? emb_tiles_x g - 1) eqn:E3;
        try reflexivity; lia.
    + destruct (emb_row_i g tile >=? 1) eqn:E1; cbn [andb];
        destruct (emb_column_i g tile + 1 =? emb_tiles_x g) eqn:E2;
        destruct (emb_column_i g tile =? emb_tiles_x g - 1) eqn:E3;
        try reflexivity; lia.
  - intros sel Ht Htx Hty.
    unfold alpha_of, place, truthy, rerun_alpha. rewrite Ht.
    rewrite andb_false_r. cbn [snd].
    destruct (emb_row_i g tile =? 0) eqn:Er;
      destruct (emb_row_i g tile =? emb_tiles_y g - 1) eqn:Er';
      destruct (emb_column_i g tile =? 0) eqn:Ec;
      destruct (emb_column_i g tile =? emb_tiles_x g - 1) eqn:Ec';
      try lia;
      destruct (contains sel (tile + 1));
      destruct (contains sel (tile + emb_tiles_x g));
      reflexivity.
Qed.

Lemma asymmetric_corner_use_witness :
  applied (asymmetric_corner grid_3x3) (alpha_of grid_3x3 (Some [3; 4; 6; 7]) 3) = true.
Proof.
  exact (proj2 (asymmetric_corner_use grid_3x3 (Some [3; 4; 6; 7]) 3 ltac:(discriminate))
           [3; 4; 6; 7] eq_refl ltac:(discriminate) ltac:(discriminate)).
Defined.
